(** * CacheSimulator (src/correlation_finder.py): a shallow embedding

    The Python class [CacheSimulator] keeps its entries in a
    [collections.OrderedDict] keyed by strings, bumps three integer counters
    and picks eviction victims according to a strategy name.  This file
    embeds the class method by method and checks the cache properties of the
    specification against it.

    Modelling conventions.
    - The [OrderedDict] is an association list in iteration order (front =
      first key the iterator yields).  Keys are unique in every state the
      class can reach; this is the predicate [wf], proved to be preserved.
    - Every call of [time.time()] is an explicit argument of the method that
      makes it.  Timestamps and durations are exact integers (clock ticks).
    - [random.choice] takes the drawn index as an argument; the loops of
      [warmup] and [simulate_workload] take, per iteration, what the random
      source, [generate_key], [generate_value] and the clock yield;
      [generate_value] keeps its OverflowError.
    - [with self.lock] makes every method body atomic; the methods are
      modelled as functions from state to state and result. *)

From Stdlib Require Import ZArith List String Lia Bool.
From stdpp Require Import base option strings gmap.
Import ListNotations.
Local Open Scope Z_scope.

(** ** Python built-ins used by the class *)

Module Py.

(** Outcome of a call that may raise. *)
Inductive outcome (A : Type) : Type :=
| Returned (a : A)
| Raised (exn : string).
Arguments Returned {A} a.
Arguments Raised {A} exn.

(** [x or d] where [x] is [None] or a number: [None] and [0] are falsy. *)
Definition or_ (x : option Z) (d : Z) : Z :=
  match x with
  | None => d
  | Some n => if n =? 0 then d else n
  end.

(** The loop of [min(iterable, key=f)]: the running minimum is replaced
    only by a strictly smaller element, so the first minimal element of
    the iteration wins. *)
Fixpoint min_from (f : string -> Z) (best : string) (rest : list string) : string :=
  match rest with
  | [] => best
  | k :: rest' => if f k <? f best then min_from f k rest' else min_from f best rest'
  end.

(** [random.choice(seq)] with the drawn index [r] made explicit. *)
Definition choice (r : nat) (seq : list string) : string :=
  nth (r mod length seq)%nat seq EmptyString.

(** [l.remove(x)]: the first occurrence goes ([l] unchanged stands for
    ValueError). *)
Fixpoint list_remove (x : string) (l : list string) : list string :=
  match l with
  | [] => []
  | y :: l' => if String.eqb x y then l' else y :: list_remove x l'
  end.

(** [l[:n]] for an integer [n]; a negative [n] counts from the end. *)
Definition slice_to (n : Z) (l : list string) : list string :=
  if 0 <=? n then firstn (Z.to_nat n) l
  else firstn (length l - Z.to_nat (- n)) l.

End Py.

(** ** collections.OrderedDict with string keys *)

Module OrderedDict.
Section Dict.
Context {A : Type}.

(** [d[k]] ([None] stands for KeyError), also [k in d]. *)
Fixpoint getitem (k : string) (d : list (string * A)) : option A :=
  match d with
  | [] => None
  | (k', a) :: d' => if String.eqb k k' then Some a else getitem k d'
  end.

Definition contains (k : string) (d : list (string * A)) : bool :=
  match getitem k d with Some _ => true | None => false end.

(** [d[k] = a]: an existing key keeps its position, a new key goes last. *)
Fixpoint setitem (k : string) (a : A) (d : list (string * A)) : list (string * A) :=
  match d with
  | [] => [(k, a)]
  | (k', a') :: d' =>
      if String.eqb k k' then (k, a) :: d' else (k', a') :: setitem k a d'
  end.

(** [del d[k]]. *)
Fixpoint delitem (k : string) (d : list (string * A)) : list (string * A) :=
  match d with
  | [] => []
  | (k', a') :: d' =>
      if String.eqb k k' then d' else (k', a') :: delitem k d'
  end.

(** [d.move_to_end(k)]. *)
Definition move_to_end (k : string) (d : list (string * A)) : list (string * A) :=
  match getitem k d with
  | Some a => delitem k d ++ [(k, a)]
  | None => d
  end.

(** [d.keys()], in iteration order. *)
Definition keys (d : list (string * A)) : list string := map fst d.

End Dict.
End OrderedDict.

(** ** The class *)

Module CacheSimulator.
Import OrderedDict.

Section Class.
Context {Value : Type}.

(** The dict stored under each key by [set]. *)
Record Item : Type := mkItem {
  value : Value;
  expires : Z;
  created : Z;
  accessed : Z;
  last_access : option Z
}.

Record t : Type := mk {
  max_size : Z;
  ttl : Z;
  cache : list (string * Item);
  access_count : gmap string Z;
  hit_count : Z;
  miss_count : Z;
  eviction_count : Z;
  strategies : list string;
  strategy : string
}.

Definition with_cache (c : t) (d : list (string * Item)) : t :=
  mk (max_size c) (ttl c) d (access_count c) (hit_count c) (miss_count c)
     (eviction_count c) (strategies c) (strategy c).

Definition LRU : string := "lru".
Definition LFU : string := "lfu".
Definition FIFO : string := "fifo".
Definition TTL : string := "ttl".

(** [__init__(self, max_size=1000, ttl=300)]; [r] is the index drawn by
    [random.choice(self.strategies)].  [new] is the object the body
    initialises; the body has no [raise], so the call returns it. *)
Definition new (max_size ttl : Z) (r : nat) : t :=
  let strategies := [LRU; LFU; FIFO; TTL] in
  mk max_size ttl [] ∅ 0 0 0 strategies (Py.choice r strategies).

Definition __init__ (max_size ttl : Z) (r : nat) : Py.outcome t :=
  Py.Returned (new max_size ttl r).

(** The key functions of the two [min] calls in [evict]:
    [lambda k: self.cache[k]['accessed']] and
    [lambda k: self.cache[k]['expires']]. *)
Definition accessed_of (d : list (string * Item)) (k : string) : Z :=
  match getitem k d with Some it => accessed it | None => 0 end.

Definition expires_of (d : list (string * Item)) (k : string) : Z :=
  match getitem k d with Some it => expires it | None => 0 end.

(** [evict(self)]. *)
Definition evict (c : t) : t * option string :=
  match cache c with
  | [] => (c, None)
  | (k0, _) :: rest =>
      let '(key, d) :=
        if String.eqb (strategy c) LRU then
          (k0, rest)
        else if String.eqb (strategy c) LFU then
          let key := Py.min_from (accessed_of (cache c)) k0 (keys rest) in
          (key, delitem key (cache c))
        else if String.eqb (strategy c) FIFO then
          (k0, delitem k0 (cache c))
        else
          let key := Py.min_from (expires_of (cache c)) k0 (keys rest) in
          (key, delitem key (cache c)) in
      (mk (max_size c) (ttl c) d (access_count c) (hit_count c) (miss_count c)
          (eviction_count c + 1) (strategies c) (strategy c),
       Some key)
  end.

(** [set(self, key, value, custom_ttl=None)]; [now1] and [now2] are the two
    readings of [time.time()], for [expires] and for [created]. *)
Definition set (c : t) (key : string) (v : Value) (custom_ttl : option Z)
    (now1 now2 : Z) : t * bool :=
  let c1 :=
    if Z.of_nat (length (cache c)) >=? max_size c then fst (evict c) else c in
  let expires := now1 + Py.or_ custom_ttl (ttl c1) in
  (with_cache c1 (setitem key (mkItem v expires now2 0 None) (cache c1)), true).

(** [get(self, key)]; [now] is the reading compared with [expires], [now2]
    the one stored in [last_access].  [item] aliases the stored dict, so
    the two assignments to it update the entry in place. *)
Definition get (c : t) (key : string) (now now2 : Z) : t * option Value :=
  match getitem key (cache c) with
  | None =>
      (mk (max_size c) (ttl c) (cache c) (access_count c) (hit_count c)
          (miss_count c + 1) (eviction_count c) (strategies c) (strategy c),
       None)
  | Some item =>
      if now >? expires item then
        (mk (max_size c) (ttl c) (delitem key (cache c)) (access_count c)
            (hit_count c) (miss_count c + 1) (eviction_count c + 1)
            (strategies c) (strategy c),
         None)
      else
        let item' :=
          mkItem (value item) (expires item) (created item)
                 (accessed item + 1) (Some now2) in
        let d1 := setitem key item' (cache c) in
        let d2 := if String.eqb (strategy c) LRU then move_to_end key d1 else d1 in
        (mk (max_size c) (ttl c) d2
            (<[key := default 0 (access_count c !! key) + 1]> (access_count c))
            (hit_count c + 1) (miss_count c) (eviction_count c)
            (strategies c) (strategy c),
         Some (value item'))
  end.

(** The deletion of [simulate_workload]:
    [with self.lock: if key in self.cache: del self.cache[key]]. *)
Definition delete (c : t) (key : string) : t :=
  if contains key (cache c) then with_cache c (delitem key (cache c)) else c.

(** *** Sequences of calls *)

Inductive call : Type :=
| CallSet (key : string) (v : Value) (custom_ttl : option Z) (now1 now2 : Z)
| CallGet (key : string) (now now2 : Z)
| CallEvict
| CallDelete (key : string).

Definition step (c : t) (op : call) : t :=
  match op with
  | CallSet key v custom_ttl now1 now2 => fst (set c key v custom_ttl now1 now2)
  | CallGet key now now2 => fst (get c key now now2)
  | CallEvict => fst (evict c)
  | CallDelete key => delete c key
  end.

Definition run (c : t) (ops : list call) : t := fold_left step ops c.

(** The states after each call, in order. *)
Fixpoint trace (c : t) (ops : list call) : list t :=
  match ops with
  | [] => []
  | op :: ops' => step c op :: trace (step c op) ops'
  end.

Definition is_get (op : call) : bool :=
  match op with CallGet _ _ _ => true | _ => false end.

(** Number of [get] calls in a sequence. *)
Fixpoint count_gets (ops : list call) : Z :=
  match ops with
  | [] => 0
  | op :: ops' => (if is_get op then 1 else 0) + count_gets ops'
  end.

(** *** The workload driver and the statistics *)

(** [generate_key(self, prefix='cache')]: the prefix, a colon and the first
    16 characters of a hex digest.  [digest] is
    [hashlib.md5(str(random.random()).encode()).hexdigest()]. *)
Definition generate_key (prefix digest : string) : string :=
  String.append prefix (String.append ":" (substring 0 16 digest)).

(** What one iteration of [warmup] takes from outside: the digest inside
    [generate_key], the dict [generate_value] returns, and the two clock
    readings of [set]. *)
Record fill : Type := mkFill {
  fill_digest : string;
  fill_value : Value;
  fill_now1 : Z;
  fill_now2 : Z
}.

(** [warmup(self, count=500)]; [inputs] has one element per iteration of
    [for i in range(count)]. *)
Fixpoint warmup (c : t) (inputs : list fill) : t :=
  match inputs with
  | [] => c
  | i :: inputs' =>
      warmup (fst (set c (generate_key "warmup" (fill_digest i)) (fill_value i)
                       (Some 3600) (fill_now1 i) (fill_now2 i)))
             inputs'
  end.

(** [generate_value(self, size=1024)].  [bits] is
    [random.getrandbits(size)], a number below [2 ^ size]; [to_bytes(size//8,
    'big')] raises OverflowError when it does not fit [size//8] bytes, which
    can happen only when [size] is not a multiple of 8.  [payload] is the
    dict built when it fits. *)
Definition generate_value (size bits : Z) (payload : Value) : Py.outcome Value :=
  if bits <? 2 ^ (8 * (size / 8)) then Py.Returned payload
  else Py.Raised "OverflowError".

(** What one iteration of [simulate_workload] takes from outside.  Of
    [r = random.random()] only the two comparisons matter. *)
Record draw : Type := mkDraw {
  below_read : bool;     (* r < read_ratio *)
  below_write : bool;    (* r < read_ratio + write_ratio *)
  pick : nat;            (* the index random.choice(keys) draws *)
  digest : string;       (* the digest inside generate_key *)
  size : Z;              (* random.randint(128, 4096) *)
  bits : Z;              (* random.getrandbits(size) inside generate_value *)
  payload : Value;       (* the dict generate_value builds *)
  clock1 : Z;            (* the readings of time.time() in get or set *)
  clock2 : Z
}.

(** The [if] that ends the loop body.  [len(keys) > self.max_size * 1.5]
    compares an integer with one and a half times an integer, which is
    [2 * len(keys) > 3 * max_size]. *)
Definition trim_keys (st : t * list string) : t * list string :=
  let '(c, keys) := st in
  (c,
   if 2 * Z.of_nat (length keys) >? 3 * max_size c
   then Py.slice_to (max_size c) keys else keys).

(** The body of the [for] loop of [simulate_workload] on the cache and the
    local list [keys].  In the write branch [generate_value] runs before
    [set]: when it raises, nothing has been written and the exception
    leaves the loop. *)
Definition workload_iteration (st : t * list string) (d : draw)
    : Py.outcome (t * list string) :=
  let '(c, keys) := st in
  if below_read d && negb (Nat.eqb (length keys) 0) then
    let key := Py.choice (pick d) keys in
    Py.Returned (trim_keys (fst (get c key (clock1 d) (clock2 d)), keys))
  else if below_write d then
    let key := generate_key "cache" (digest d) in
    match generate_value (size d) (bits d) (payload d) with
    | Py.Raised exn => Py.Raised exn
    | Py.Returned v =>
        Py.Returned
          (trim_keys (fst (set c key v None (clock1 d) (clock2 d)), keys ++ [key]))
    end
  else if negb (Nat.eqb (length keys) 0) then
    let key := Py.choice (pick d) keys in
    Py.Returned (trim_keys (delete c key, Py.list_remove key keys))
  else
    Py.Returned (trim_keys (c, keys)).

(** The loop from a given cache and list [keys]: the cache and the list as
    the loop leaves them, and whether it ran through or an iteration
    raised. *)
Fixpoint workload_from (st : t * list string) (draws : list draw)
    : (t * list string) * Py.outcome unit :=
  match draws with
  | [] => (st, Py.Returned tt)
  | d :: draws' =>
      match workload_iteration st d with
      | Py.Returned st' => workload_from st' draws'
      | Py.Raised exn => (st, Py.Raised exn)
      end
  end.

Definition workload_loop (c : t) (draws : list draw)
    : (t * list string) * Py.outcome unit :=
  workload_from (c, []) draws.

(** [simulate_workload(self, operations=1000)]; [draws] has one element per
    iteration of [for i in range(operations)].  The result is the cache as
    the call leaves it and how the call ends. *)
Definition simulate_workload (c : t) (draws : list draw) : t * Py.outcome unit :=
  (fst (fst (workload_loop c draws)), snd (workload_loop c draws)).

(** The value of [hit_ratio]: the float that [self.hit_count /
    total_requests] yields, kept as the two integers divided, or the
    integer 0. *)
Inductive ratio : Type :=
| IntZero
| FloatQuotient (num den : Z).

(** The dict [get_stats] returns. *)
Record Stats : Type := mkStats {
  stats_size : Z;
  stats_max_size : Z;
  stats_hits : Z;
  stats_misses : Z;
  stats_hit_ratio : ratio;
  stats_evictions : Z;
  stats_strategy : string;
  stats_memory_estimate : Z
}.

(** [get_stats(self)]; [str_len v] is [len(str(v))]. *)
Definition get_stats (str_len : Item -> nat) (c : t) : Stats :=
  let total_requests := hit_count c + miss_count c in
  let hit_ratio :=
    if total_requests >? 0
    then FloatQuotient (hit_count c) total_requests
    else IntZero in
  mkStats (Z.of_nat (length (cache c))) (max_size c) (hit_count c) (miss_count c)
          hit_ratio (eviction_count c) (strategy c)
          (Z.of_nat (list_sum (map (fun kv => str_len (snd kv)) (cache c)))).

(** [main()] up to the [print]: [fills] are the iterations of
    [warmup(300)], [draws] those of [simulate_workload(5000)].  An
    exception of [simulate_workload] ends [main]. *)
Definition main (str_len : Item -> nat) (r : nat) (fills : list fill)
    (draws : list draw) : Py.outcome Stats :=
  let cache := new 500 600 r in
  let cache := warmup cache fills in
  match simulate_workload cache draws with
  | (cache, Py.Returned _) => Py.Returned (get_stats str_len cache)
  | (_, Py.Raised exn) => Py.Raised exn
  end.

(** What the latest [set] call on key [k] in a sequence passed and read
    from the clock. *)
Definition last_set (k : string) (ops : list call)
    : option (Value * option Z * Z * Z) :=
  fold_left
    (fun acc op =>
       match op with
       | CallSet key v custom_ttl now1 now2 =>
           if String.eqb k key then Some (v, custom_ttl, now1, now2) else acc
       | _ => acc
       end)
    ops None.

Definition is_set (op : call) : bool :=
  match op with CallSet _ _ _ _ _ => true | _ => false end.

(** Number of [set] calls in a sequence. *)
Fixpoint count_sets (ops : list call) : Z :=
  match ops with
  | [] => 0
  | op :: ops' => (if is_set op then 1 else 0) + count_sets ops'
  end.

(** The key a call names, if any. *)
Definition key_of (op : call) : option string :=
  match op with
  | CallSet key _ _ _ _ => Some key
  | CallGet key _ _ => Some key
  | CallEvict => None
  | CallDelete key => Some key
  end.

(** Keys are unique, as in any Python dict. *)
Definition wf (c : t) : Prop := List.NoDup (keys (cache c)).

End Class.

Arguments Item : clear implicits.
Arguments t : clear implicits.
Arguments call : clear implicits.
Arguments fill : clear implicits.
Arguments draw : clear implicits.

End CacheSimulator.

(** ** Vocabulary of the properties *)

Section Vocabulary.
Import OrderedDict CacheSimulator.
Context {Value : Type}.
Implicit Types (c : t Value) (op : call Value).

(** [victim] is the first key of [ks] minimising [f]; [pre] is the part of
    [ks] in front of it. *)
Definition first_min (f : string -> Z) (ks pre : list string) (victim : string) : Prop :=
  (forall k, In k ks -> f victim <= f k) /\ (forall k, In k pre -> f victim < f k).

(** What each branch of [evict] picks, given the keys [pre] that precede
    the victim in iteration order. *)
Definition chosen_by (strat : string) (d : list (string * Item Value))
    (pre : list string) (victim : string) : Prop :=
  if String.eqb strat LRU then pre = []
  else if String.eqb strat LFU then first_min (accessed_of d) (keys d) pre victim
  else if String.eqb strat FIFO then pre = []
  else first_min (expires_of d) (keys d) pre victim.

(** The capacity bound. *)
Definition bounded c : Prop := Z.of_nat (length (cache c)) <= max_size c.

(** The random bits of a draw fit the bytes [generate_value] asks for. *)
Definition fits (d : draw Value) : Prop := bits d < 2 ^ (8 * (size d / 8)).

(** Per key: [access_count[k]] lies between the [accessed] field of the
    stored entry and [hit_count]. *)
Definition access_inv c : Prop :=
  (forall k, 0 <= default 0 (access_count c !! k) <= hit_count c) /\
  (forall k it, getitem k (cache c) = Some it ->
                0 <= accessed it <= default 0 (access_count c !! k)).

(** The keys [simulate_workload] generates, and the key of a [warmup]
    iteration. *)
Definition is_cache_key (k : string) : Prop :=
  exists digest, k = generate_key "cache" digest.

(** The calls of a sequence name generated keys only. *)
Definition cache_keyed (ops : list (call Value)) : Prop :=
  Forall (fun op => exists k, key_of op = Some k /\ is_cache_key k) ops.

Definition warm_key (i : fill Value) : string :=
  generate_key "warmup" (fill_digest i).

(** The [set] call of a [warmup] iteration. *)
Definition warm_call (i : fill Value) : call Value :=
  CallSet (warm_key i) (fill_value i) (Some 3600) (fill_now1 i) (fill_now2 i).

(** An entry as [warmup] writes it. *)
Definition warm_item (inputs : list (fill Value)) (it : Item Value) : Prop :=
  exists i, In i inputs /\ value it = fill_value i /\
            expires it = fill_now1 i + 3600 /\ created it = fill_now2 i /\
            accessed it = 0 /\ last_access it = None.

End Vocabulary.

(** ** Concrete scenarios (values are integers) *)

Module Scenarios.
Import CacheSimulator.

Definition a : string := "a".
Definition b : string := "b".
Definition c : string := "c".
Definition k : string := "k".

(** [r = 0] draws "lru", [r = 1] "lfu", [r = 2] "fifo", [r = 3] "ttl". *)

(** One entry that expires at clock reading 10. *)
Definition expiring_at_10 : t Z :=
  run (new 10 300 0) [CallSet k 7 (Some 10) 0 0].

(** [set(k, 7, 0)] at clock reading 100 on a fresh cache whose ttl is 300. *)
Definition after_set_ttl_0 : t Z :=
  fst (set (new 10 300 0) k 7 (Some 0) 100 100).

(** A FIFO cache of capacity 2 holding [a] and [b]. *)
Definition full_fifo : t Z :=
  run (new 2 300 2) [CallSet a 1 None 0 0; CallSet b 2 None 1 1].

(** The LRU scenario: capacity 3, [set(a)], [set(b)], [set(a, v')], [set(c)]. *)
Definition lru_overwrite : t Z :=
  run (new 3 300 0)
      [CallSet a 1 None 0 0; CallSet b 2 None 1 1;
       CallSet a 9 None 2 2; CallSet c 3 None 3 3].

(** An LFU cache where [a] was read once and [b], [c] never. *)
Definition lfu_three : t Z :=
  run (new 5 300 1)
      [CallSet a 1 None 0 0; CallSet b 2 None 1 1; CallSet c 3 None 2 2;
       CallGet a 3 3].

(** One entry stored with a negative ttl. *)
Definition negative_ttl : t Z :=
  run (new 10 300 0) [CallSet k 7 (Some (-5)) 100 100].

(** A short mixed run. *)
Definition mixed_calls : list (call Z) :=
  [CallSet a 1 None 0 0; CallGet a 1 1; CallSet b 2 (Some 5) 2 3;
   CallSet c 3 None 4 4; CallEvict; CallDelete b; CallGet b 5 5].

(** An LRU cache of capacity 5 holding [a] and [b], both live until 300. *)
Definition two_live : t Z :=
  run (new 5 300 0) [CallSet a 1 None 0 0; CallSet b 2 None 1 1].

(** The entry [set(a, 1)] stored at clock reading 0 with the ttl 300. *)
Definition item_a : Item Z := mkItem 1 300 0 0 None.

(** A cache with the ttl strategy: [a] expires at 50, [b] at 21. *)
Definition ttl_two : t Z :=
  run (new 5 300 3) [CallSet a 1 (Some 50) 0 0; CallSet b 2 (Some 20) 1 1].

(** Calls that name [b] only. *)
Definition calls_on_b : list (call Z) := [CallGet b 2 2; CallDelete b; CallEvict].

(** Three [warmup] iterations with different digests. *)
Definition three_fills : list (fill Z) :=
  [mkFill "0f" 1 0 0; mkFill "1e" 2 1 1; mkFill "2d" 3 2 2].

(** Four [simulate_workload] iterations: write, read, write, delete.  The
    sizes are multiples of 8, so every number of that many bits fits. *)
Definition four_draws : list (draw Z) :=
  [mkDraw false true 0 "aa" 128 5 1 0 0; mkDraw true true 0 "" 0 0 0 1 1;
   mkDraw false true 0 "bb" 256 (2 ^ 255) 2 2 2; mkDraw false false 1 "" 0 0 0 3 3].


(** The entry [set(b, 2)] stored at clock reading 1 with the ttl 300. *)
Definition item_b : Item Z := mkItem 2 301 1 0 None.

(** The entry [set(b, 2, 20)] stored at clock reading 1. *)
Definition item_b_20 : Item Z := mkItem 2 21 1 0 None.

End Scenarios.

(** ** Facts about the dictionary operations *)

Section DictFacts.
Import OrderedDict.
Context {A : Type}.
Implicit Types (d : list (string * A)) (k : string) (a : A).

Lemma getitem_In_keys k d a : getitem k d = Some a -> In k (keys d).
Proof.
  induction d as [|[k' a'] d IH]; simpl; [discriminate|].
  destruct (String.eqb_spec k k'); [left; congruence | right; auto].
Qed.

Lemma getitem_None_keys k d : getitem k d = None <-> ~ In k (keys d).
Proof.
  induction d as [|[k' a'] d IH]; simpl; [tauto|].
  destruct (String.eqb_spec k k') as [->|Hne].
  - split; [discriminate | intros H; exfalso; apply H; now left].
  - rewrite IH. split; intros H; [intros [E|I]; [congruence | tauto] | tauto].
Qed.

Lemma In_keys_getitem k d : In k (keys d) -> exists a, getitem k d = Some a.
Proof.
  intros H. destruct (getitem k d) eqn:E; [eauto|].
  apply getitem_None_keys in E. contradiction.
Qed.

Lemma keys_setitem k a d :
  keys (setitem k a d) = if contains k d then keys d else keys d ++ [k].
Proof.
  unfold contains. induction d as [|[k' a'] d IH]; simpl; [reflexivity|].
  destruct (String.eqb_spec k k') as [->|Hne]; simpl; [reflexivity|].
  rewrite IH. destruct (getitem k d); reflexivity.
Qed.

Lemma length_setitem k a d :
  length (setitem k a d) = if contains k d then length d else S (length d).
Proof.
  unfold contains. induction d as [|[k' a'] d IH]; simpl; [reflexivity|].
  destruct (String.eqb_spec k k'); simpl; [reflexivity|].
  rewrite IH. destruct (getitem k d); reflexivity.
Qed.

Lemma length_setitem_le k a d : (length (setitem k a d) <= S (length d))%nat.
Proof. rewrite length_setitem. destruct (contains k d); lia. Qed.

Lemma getitem_setitem_eq k a d : getitem k (setitem k a d) = Some a.
Proof.
  induction d as [|[k' a'] d IH]; simpl.
  - now rewrite String.eqb_refl.
  - destruct (String.eqb_spec k k') as [->|Hne]; simpl.
    + now rewrite String.eqb_refl.
    + destruct (String.eqb_spec k k'); [contradiction | exact IH].
Qed.

Lemma getitem_setitem_ne k k' a d :
  k <> k' -> getitem k' (setitem k a d) = getitem k' d.
Proof.
  intros Hne. induction d as [|[k1 a1] d IH]; simpl.
  - destruct (String.eqb_spec k' k); [congruence | reflexivity].
  - destruct (String.eqb_spec k k1) as [->|Hk]; simpl.
    + destruct (String.eqb_spec k' k1); [congruence | reflexivity].
    + rewrite IH. reflexivity.
Qed.

Lemma length_delitem k d a :
  getitem k d = Some a -> S (length (delitem k d)) = length d.
Proof.
  induction d as [|[k' a'] d IH]; simpl; [discriminate|].
  destruct (String.eqb_spec k k'); simpl; [reflexivity | intros H; f_equal; auto].
Qed.

Lemma length_delitem_le k d : (length (delitem k d) <= length d)%nat.
Proof.
  induction d as [|[k' a'] d IH]; simpl; [lia|].
  destruct (String.eqb k k'); simpl; lia.
Qed.

Lemma delitem_absent k d : getitem k d = None -> delitem k d = d.
Proof.
  induction d as [|[k' a'] d IH]; simpl; [reflexivity|].
  destruct (String.eqb_spec k k'); [discriminate | intros H; f_equal; auto].
Qed.

Lemma getitem_delitem_ne k k' d :
  k <> k' -> getitem k' (delitem k d) = getitem k' d.
Proof.
  intros Hne. induction d as [|[k1 a1] d IH]; simpl; [reflexivity|].
  destruct (String.eqb_spec k k1) as [->|Hk]; simpl.
  - destruct (String.eqb_spec k' k1); [congruence | reflexivity].
  - rewrite IH. reflexivity.
Qed.

Lemma In_keys_delitem k k' d : In k' (keys (delitem k d)) -> In k' (keys d).
Proof.
  induction d as [|[k1 a1] d IH]; simpl; [tauto|].
  destruct (String.eqb k k1); simpl; tauto.
Qed.

Lemma NoDup_keys_delitem k d : List.NoDup (keys d) -> List.NoDup (keys (delitem k d)).
Proof.
  induction d as [|[k1 a1] d IH]; simpl; [auto|].
  intros H. inversion H as [|? ? Hni Hnd]; subst.
  destruct (String.eqb k k1); simpl; [assumption|].
  constructor; [|auto]. intros Hin. apply Hni. eapply In_keys_delitem; eauto.
Qed.

Lemma getitem_delitem_eq k d : List.NoDup (keys d) -> getitem k (delitem k d) = None.
Proof.
  induction d as [|[k1 a1] d IH]; simpl; [reflexivity|].
  intros H. inversion H as [|? ? Hni Hnd]; subst.
  destruct (String.eqb_spec k k1) as [->|Hk]; simpl.
  - now apply getitem_None_keys.
  - destruct (String.eqb_spec k k1); [contradiction | auto].
Qed.

Lemma NoDup_keys_setitem k a d : List.NoDup (keys d) -> List.NoDup (keys (setitem k a d)).
Proof.
  intros H. rewrite keys_setitem. unfold contains.
  destruct (getitem k d) eqn:E; [assumption|].
  apply getitem_None_keys in E.
  apply List.NoDup_app; auto.
  - constructor; [intros Hin; inversion Hin | constructor].
  - intros x Hx [<-|[]]. contradiction.
Qed.

Lemma NoDup_keys_move_to_end k d : List.NoDup (keys d) -> List.NoDup (keys (move_to_end k d)).
Proof.
  intros H. unfold move_to_end. destruct (getitem k d) eqn:E; [|assumption].
  unfold keys. rewrite map_app. simpl.
  apply List.NoDup_app.
  - now apply NoDup_keys_delitem.
  - constructor; [intros Hin; inversion Hin | constructor].
  - intros x Hx [<-|[]].
    apply In_keys_getitem in Hx. destruct Hx as [a' Ha'].
    rewrite getitem_delitem_eq in Ha' by assumption. discriminate.
Qed.

Lemma length_move_to_end k d : length (move_to_end k d) = length d.
Proof.
  unfold move_to_end. destruct (getitem k d) eqn:E; [|reflexivity].
  rewrite length_app. simpl. apply length_delitem in E. lia.
Qed.

(** Values stored in a dictionary. *)
Lemma Forall_values_setitem (P : A -> Prop) k a d :
  P a -> Forall P (map snd d) -> Forall P (map snd (setitem k a d)).
Proof.
  intros Ha. induction d as [|[k' a'] d IH]; simpl; intros H.
  - constructor; auto.
  - inversion H; subst. destruct (String.eqb k k'); simpl; constructor; auto.
Qed.

Lemma Forall_values_delitem (P : A -> Prop) k d :
  Forall P (map snd d) -> Forall P (map snd (delitem k d)).
Proof.
  induction d as [|[k' a'] d IH]; simpl; intros H; [constructor|].
  inversion H; subst. destruct (String.eqb k k'); simpl; [|constructor]; auto.
Qed.

Lemma Forall_values_getitem (P : A -> Prop) k a d :
  Forall P (map snd d) -> getitem k d = Some a -> P a.
Proof.
  induction d as [|[k' a'] d IH]; simpl; intros H; [discriminate|].
  inversion H; subst. destruct (String.eqb k k'); [congruence | auto].
Qed.

Lemma Forall_values_move_to_end (P : A -> Prop) k d :
  Forall P (map snd d) -> Forall P (map snd (move_to_end k d)).
Proof.
  intros H. unfold move_to_end. destruct (getitem k d) eqn:E; [|assumption].
  rewrite map_app. apply Forall_app. split.
  - now apply Forall_values_delitem.
  - simpl. constructor; [|constructor]. eapply Forall_values_getitem; eauto.
Qed.

Lemma keys_delitem_sublist k d : sublist (keys (delitem k d)) (keys d).
Proof.
  induction d as [|[k' a'] d IH]; simpl; [constructor|].
  destruct (String.eqb k k'); simpl.
  - apply sublist_cons. reflexivity.
  - apply sublist_skip. exact IH.
Qed.

End DictFacts.

(** ** Further facts about the dictionary operations *)

Section MoreDictFacts.
Import OrderedDict.
Context {A : Type}.
Implicit Types (d : list (string * A)) (k : string) (a : A).

Lemma getitem_app k d1 d2 :
  getitem k (d1 ++ d2) =
  match getitem k d1 with Some a => Some a | None => getitem k d2 end.
Proof.
  induction d1 as [|[k' a'] d1 IH]; simpl; [reflexivity|].
  destruct (String.eqb k k'); [reflexivity | exact IH].
Qed.

Lemma delitem_setitem k a d : delitem k (setitem k a d) = delitem k d.
Proof.
  induction d as [|[k' a'] d IH]; simpl.
  - now rewrite String.eqb_refl.
  - destruct (String.eqb_spec k k') as [->|Hne]; simpl.
    + now rewrite String.eqb_refl.
    + destruct (String.eqb_spec k k'); [contradiction | now rewrite IH].
Qed.

Lemma move_to_end_setitem k a d :
  move_to_end k (setitem k a d) = delitem k d ++ [(k, a)].
Proof.
  unfold move_to_end. now rewrite getitem_setitem_eq, delitem_setitem.
Qed.

Lemma getitem_move_to_end_ne k k' d :
  k <> k' -> getitem k' (move_to_end k d) = getitem k' d.
Proof.
  intros Hne. unfold move_to_end. destruct (getitem k d) eqn:E; [|reflexivity].
  rewrite getitem_app, getitem_delitem_ne by assumption.
  destruct (getitem k' d); [reflexivity|]. simpl.
  destruct (String.eqb_spec k' k); [congruence | reflexivity].
Qed.

Lemma getitem_split_ne k k' a d1 d2 :
  k <> k' -> getitem k' (d1 ++ (k, a) :: d2) = getitem k' (d1 ++ d2).
Proof.
  intros Hne. rewrite !getitem_app. simpl.
  destruct (String.eqb_spec k' k); [congruence | reflexivity].
Qed.

Lemma getitem_split_eq k a d1 d2 :
  List.NoDup (keys (d1 ++ (k, a) :: d2)) -> getitem k (d1 ++ d2) = None.
Proof.
  intros H. apply getitem_None_keys. unfold keys in *.
  rewrite map_app in *. simpl in H. now apply List.NoDup_remove_2 in H.
Qed.

Lemma hd_keys_setitem k a p d :
  hd_error (keys (setitem k a (p :: d))) = hd_error (keys (p :: d)).
Proof. destruct p as [k' a']. simpl. destruct (String.eqb_spec k k'); simpl; congruence. Qed.

End MoreDictFacts.

(** ** Facts about [min] *)

Section MinFacts.
Variable f : string -> Z.

Lemma min_from_In best rest : In (Py.min_from f best rest) (best :: rest).
Proof.
  revert best. induction rest as [|k rest IH]; intros best; simpl; [now left|].
  destruct (f k <? f best).
  - right. apply IH.
  - destruct (IH best) as [E|I]; [now left | right; now right].
Qed.

Lemma min_from_le_best best rest : f (Py.min_from f best rest) <= f best.
Proof.
  revert best. induction rest as [|k rest IH]; intros best; simpl; [lia|].
  destruct (Z.ltb_spec (f k) (f best)).
  - specialize (IH k). lia.
  - apply IH.
Qed.

Lemma min_from_le best rest k :
  In k (best :: rest) -> f (Py.min_from f best rest) <= f k.
Proof.
  revert best. induction rest as [|k' rest IH]; intros best Hin; simpl.
  - destruct Hin as [->|[]]. lia.
  - destruct (Z.ltb_spec (f k') (f best)).
    + destruct Hin as [->|Hin]; [|now apply IH].
      pose proof (min_from_le_best k' rest). lia.
    + destruct Hin as [->|[->|Hin]].
      * apply min_from_le_best.
      * pose proof (min_from_le_best best rest). lia.
      * apply IH. now right.
Qed.

(** The result is the first minimal element: everything in front of it is
    strictly larger. *)
Lemma min_from_first best rest :
  exists pre post,
    best :: rest = pre ++ Py.min_from f best rest :: post /\
    forall k, In k pre -> f (Py.min_from f best rest) < f k.
Proof.
  revert best. induction rest as [|k rest IH]; intros best; simpl.
  - exists [], []. split; [reflexivity | intros ? []].
  - destruct (Z.ltb_spec (f k) (f best)) as [Hlt|Hge].
    + destruct (IH k) as (pre & post & E & Hpre).
      exists (best :: pre), post. split; [simpl; now rewrite E|].
      intros x [<-|Hx]; [|now apply Hpre].
      pose proof (min_from_le_best k rest). lia.
    + destruct (IH best) as (pre & post & E & Hpre).
      destruct pre as [|b pre].
      * simpl in E. injection E as Eb Er.
        exists [], (k :: rest). split; [simpl; f_equal; exact Eb | intros ? []].
      * simpl in E. injection E as Eb Er. subst b.
        exists (best :: k :: pre), post. split; [simpl; do 2 f_equal; exact Er|].
        intros x [<-|[<-|Hx]].
        -- apply Hpre. now left.
        -- assert (f (Py.min_from f best rest) < f best) by (apply Hpre; now left).
           lia.
        -- apply Hpre. now right.
Qed.

End MinFacts.

(** Deleting a key whose first occurrence is known. *)
Lemma delitem_split {A : Type} (k : string) (d : list (string * A)) pre post :
OrderedDict.keys d = pre ++ k :: post -> ~ In k pre ->
exists d1 a d2,
  d = d1 ++ (k, a) :: d2 /\ OrderedDict.keys d1 = pre /\
  OrderedDict.keys d2 = post /\ OrderedDict.delitem k d = d1 ++ d2.
Proof.
revert pre. induction d as [|[k1 a1] d IH]; intros pre E Hni; simpl in *.
- destruct pre; discriminate.
- destruct pre as [|p pre]; simpl in E; injection E as E1 E2.
  + subst k1. exists [], a1, d. rewrite String.eqb_refl. auto.
  + subst p. destruct (String.eqb_spec k k1) as [->|Hne].
    * exfalso. apply Hni. now left.
    * destruct (IH pre E2) as (d1 & a & d2 & Ed & K1 & K2 & Edel).
      { intros Hin. apply Hni. now right. }
      exists ((k1, a1) :: d1), a, d2. simpl.
      rewrite Ed at 1. rewrite K1, Edel. auto.
Qed.

(** ** Facts about the methods *)

Section MethodFacts.
Import OrderedDict CacheSimulator.
Context {Value : Type}.
Implicit Types (c : t Value) (key : string) (op : call Value).

Ltac evict_branches c :=
  unfold evict;
  destruct (cache c) as [|[? ?] ?] eqn:?;
  [| destruct (String.eqb (strategy c) LRU) eqn:?;
     [| destruct (String.eqb (strategy c) LFU) eqn:?;
        [| destruct (String.eqb (strategy c) FIFO) eqn:?]]];
  cbv beta iota zeta.

Lemma evict_frame c :
  let c' := fst (evict c) in
  max_size c' = max_size c /\ ttl c' = ttl c /\ strategy c' = strategy c /\
  strategies c' = strategies c /\ hit_count c' = hit_count c /\
  miss_count c' = miss_count c /\ access_count c' = access_count c.
Proof. evict_branches c; repeat split; reflexivity. Qed.

Lemma evict_empty c : cache c = [] -> evict c = (c, None).
Proof. intros H. unfold evict. now rewrite H. Qed.

Lemma min_split (f : string -> Z) (d : list (string * Item Value)) k0 it0 rest :
  d = (k0, it0) :: rest ->
  let victim := Py.min_from f k0 (keys rest) in
  exists item d1 d2,
    d = d1 ++ (victim, item) :: d2 /\ ~ In victim (keys d1) /\
    delitem victim d = d1 ++ d2 /\ first_min f (keys d) (keys d1) victim.
Proof.
  intros Hd victim.
  destruct (min_from_first f k0 (keys rest)) as (pre & post & E & Hpre).
  fold victim in E, Hpre.
  assert (Hni : ~ In victim pre).
  { intros Hin. specialize (Hpre _ Hin). lia. }
  assert (Hk : keys d = pre ++ victim :: post) by (subst d; exact E).
  destruct (delitem_split victim d pre post Hk Hni) as (d1 & a & d2 & Ed & K1 & K2 & Edel).
  exists a, d1, d2. rewrite K1. repeat split; auto.
  intros k Hin. subst d. apply min_from_le. exact Hin.
Qed.

(** The non-empty case of [evict]. *)
Lemma evict_nonempty c :
  cache c <> [] ->
  exists victim item d1 d2,
    cache c = d1 ++ (victim, item) :: d2 /\ ~ In victim (keys d1) /\
    chosen_by (strategy c) (cache c) (keys d1) victim /\
    evict c =
      (mk (max_size c) (ttl c) (d1 ++ d2) (access_count c) (hit_count c)
          (miss_count c) (eviction_count c + 1) (strategies c) (strategy c),
       Some victim).
Proof.
  intros Hne. unfold chosen_by. evict_branches c; [contradiction| | | |].
  - exists s, i, [], l. simpl. auto.
  - destruct (min_split (accessed_of ((s, i) :: l)) _ s i l eq_refl)
      as (item & d1 & d2 & Ed & Hni & Edel & Hmin).
    exists (Py.min_from (accessed_of ((s, i) :: l)) s (keys l)), item, d1, d2.
    rewrite Edel. auto.
  - exists s, i, [], l. simpl. rewrite String.eqb_refl. auto.
  - destruct (min_split (expires_of ((s, i) :: l)) _ s i l eq_refl)
      as (item & d1 & d2 & Ed & Hni & Edel & Hmin).
    exists (Py.min_from (expires_of ((s, i) :: l)) s (keys l)), item, d1, d2.
    rewrite Edel. auto.
Qed.

Lemma evict_length c :
  cache c <> [] -> S (length (cache (fst (evict c)))) = length (cache c).
Proof.
  intros Hne. destruct (evict_nonempty c Hne) as (v & it & d1 & d2 & Ec & _ & _ & Ee).
  rewrite Ee, Ec. simpl. rewrite !length_app. simpl.
  rewrite Nat.add_succ_r. reflexivity.
Qed.

Lemma evict_length_le c : (length (cache (fst (evict c))) <= length (cache c))%nat.
Proof.
  destruct (cache c) eqn:E.
  - rewrite evict_empty by assumption. simpl. rewrite E. simpl. lia.
  - rewrite <- E. assert (H : cache c <> []) by (rewrite E; discriminate).
    apply evict_length in H. lia.
Qed.

Lemma evict_values (P : Item Value -> Prop) c :
  Forall P (map snd (cache c)) -> Forall P (map snd (cache (fst (evict c)))).
Proof.
  intros H. destruct (cache c) eqn:E.
  - rewrite evict_empty by assumption. simpl. now rewrite E.
  - rewrite <- E in H. assert (Hne : cache c <> []) by (rewrite E; discriminate).
    destruct (evict_nonempty c Hne) as (v & it & d1 & d2 & Ec & _ & _ & Ee).
    rewrite Ee. simpl. rewrite Ec in H. rewrite map_app in *.
    apply Forall_app in H. destruct H as [H1 H2]. simpl in H2.
    inversion H2; subst. apply Forall_app. split; assumption.
Qed.

Lemma evict_wf c : wf c -> wf (fst (evict c)).
Proof.
  unfold wf. intros H. destruct (cache c) eqn:E.
  - rewrite evict_empty by assumption. simpl. now rewrite E.
  - rewrite <- E in H. assert (Hne : cache c <> []) by (rewrite E; discriminate).
    destruct (evict_nonempty c Hne) as (v & it & d1 & d2 & Ec & _ & _ & Ee).
    rewrite Ee. simpl. rewrite Ec in H. unfold keys in *.
    rewrite map_app in *. simpl in H. eapply List.NoDup_remove_1; eauto.
Qed.

End MethodFacts.

(** ** Invariants of single calls *)

Section StepFacts.
Import OrderedDict CacheSimulator.
Context {Value : Type}.
Implicit Types (c : t Value) (key : string) (op : call Value).

Lemma set_frame c key v custom_ttl now1 now2 :
  let c' := fst (set c key v custom_ttl now1 now2) in
  max_size c' = max_size c /\ ttl c' = ttl c /\ strategy c' = strategy c /\
  strategies c' = strategies c /\ hit_count c' = hit_count c /\
  miss_count c' = miss_count c.
Proof.
  unfold set. simpl. pose proof (evict_frame c) as F. simpl in F.
  destruct (Z.of_nat (length (cache c)) >=? max_size c); [tauto | repeat split].
Qed.

Lemma get_frame c key now now2 :
  let c' := fst (get c key now now2) in
  max_size c' = max_size c /\ ttl c' = ttl c /\ strategy c' = strategy c /\
  strategies c' = strategies c.
Proof.
  unfold get. destruct (getitem key (cache c)) as [item|]; [|repeat split].
  destruct (now >? expires item); repeat split.
Qed.

Lemma delete_frame c key :
  let c' := delete c key in
  max_size c' = max_size c /\ ttl c' = ttl c /\ strategy c' = strategy c /\
  strategies c' = strategies c /\ hit_count c' = hit_count c /\
  miss_count c' = miss_count c /\ eviction_count c' = eviction_count c.
Proof. unfold delete. destruct (contains key (cache c)); repeat split. Qed.

Lemma step_frame c op :
  max_size (step c op) = max_size c /\ ttl (step c op) = ttl c /\
  strategy (step c op) = strategy c /\ strategies (step c op) = strategies c.
Proof.
  destruct op; simpl.
  - pose proof (set_frame c key v custom_ttl now1 now2). simpl in *. tauto.
  - apply get_frame.
  - pose proof (evict_frame c). simpl in *. tauto.
  - pose proof (delete_frame c key). simpl in *. tauto.
Qed.

Lemma run_frame c ops :
  max_size (run c ops) = max_size c /\ ttl (run c ops) = ttl c /\
  strategy (run c ops) = strategy c /\ strategies (run c ops) = strategies c.
Proof.
  revert c. induction ops as [|op ops IH]; intros c; simpl; [auto|].
  destruct (IH (step c op)) as (-> & -> & -> & ->). apply step_frame.
Qed.

(** The cache of [get]'s result has at most as many entries as before. *)
Lemma get_length_le c key now now2 :
  (length (cache (fst (get c key now now2))) <= length (cache c))%nat.
Proof.
  unfold get. destruct (getitem key (cache c)) as [item|] eqn:E; simpl; [|lia].
  destruct (now >? expires item); simpl; [apply length_delitem_le|].
  assert (L : length (setitem key
               (mkItem (value item) (expires item) (created item)
                  (accessed item + 1) (Some now2)) (cache c)) = length (cache c)).
  { rewrite length_setitem. unfold contains. now rewrite E. }
  destruct (String.eqb (strategy c) LRU); [rewrite length_move_to_end|]; rewrite L; lia.
Qed.

Lemma set_bounded c key v custom_ttl now1 now2 :
  0 < max_size c -> bounded c -> bounded (fst (set c key v custom_ttl now1 now2)).
Proof.
  unfold bounded. intros Hpos Hb.
  destruct (set_frame c key v custom_ttl now1 now2) as (-> & _).
  unfold set. simpl.
  pose proof (@length_setitem_le (Item Value) key) as Hs.
  destruct (Z.geb_spec (Z.of_nat (length (cache c))) (max_size c)) as [Hge|Hlt].
  - assert (Hne : cache c <> []).
    { intros E. rewrite E in Hge. simpl in Hge. lia. }
    apply evict_length in Hne.
    match goal with |- context [setitem key ?it ?d] => specialize (Hs it d) end.
    lia.
  - match goal with |- context [setitem key ?it ?d] => specialize (Hs it d) end.
    lia.
Qed.

Lemma step_bounded c op : 0 < max_size c -> bounded c -> bounded (step c op).
Proof.
  intros Hpos Hb. destruct op; simpl.
  - now apply set_bounded.
  - unfold bounded in *. destruct (get_frame c key now now2) as (-> & _).
    pose proof (get_length_le c key now now2). lia.
  - unfold bounded in *. destruct (evict_frame c) as (-> & _).
    pose proof (evict_length_le c). lia.
  - unfold bounded in *. destruct (delete_frame c key) as (-> & _).
    unfold delete. destruct (contains key (cache c)); simpl; [|lia].
    pose proof (length_delitem_le key (cache c)). lia.
Qed.

Lemma trace_bounded c ops :
  0 < max_size c -> bounded c ->
  Forall (fun c' => Z.of_nat (length (cache c')) <= max_size c) (trace c ops).
Proof.
  revert c. induction ops as [|op ops IH]; intros c Hpos Hb; simpl; constructor.
  - pose proof (step_bounded c op Hpos Hb) as H. unfold bounded in H.
    destruct (step_frame c op) as (E & _). now rewrite E in H.
  - destruct (step_frame c op) as (E & _). rewrite <- E. apply IH.
    + now rewrite E.
    + now apply step_bounded.
Qed.

(** Keys stay unique. *)
Lemma step_wf c op : wf c -> wf (step c op).
Proof.
  intros H. destruct op; simpl.
  - unfold set, wf. simpl. apply NoDup_keys_setitem.
    destruct (Z.of_nat (length (cache c)) >=? max_size c); [now apply evict_wf | exact H].
  - unfold get, wf. destruct (getitem key (cache c)) as [item|]; simpl; [|exact H].
    destruct (now >? expires item); simpl; [now apply NoDup_keys_delitem|].
    destruct (String.eqb (strategy c) LRU);
      [apply NoDup_keys_move_to_end|]; now apply NoDup_keys_setitem.
  - now apply evict_wf.
  - unfold delete, wf. destruct (contains key (cache c)); simpl;
      [now apply NoDup_keys_delitem | exact H].
Qed.

Lemma run_wf c ops : wf c -> wf (run c ops).
Proof.
  revert c. induction ops as [|op ops IH]; intros c H; simpl; [exact H|].
  apply IH. now apply step_wf.
Qed.

Lemma new_wf max_size ttl r : wf (@new Value max_size ttl r).
Proof. unfold wf. simpl. constructor. Qed.

(** With a strategy other than lru no call reorders the store: the keys
    that stay keep their relative order, and a key that enters goes last.
    The order of the store is therefore the order in which the keys still
    present entered it. *)
Lemma evict_keys_sublist c : sublist (keys (cache (fst (evict c)))) (keys (cache c)).
Proof.
  destruct (cache c) eqn:E.
  - rewrite evict_empty by assumption. simpl. rewrite E. reflexivity.
  - rewrite <- E. assert (Hne : cache c <> []) by (rewrite E; discriminate).
    destruct (evict_nonempty c Hne) as (v & it & d1 & d2 & Ec & _ & _ & Ee).
    rewrite Ee, Ec. simpl. unfold keys. rewrite !map_app. simpl.
    apply sublist_app; [reflexivity | apply sublist_cons; reflexivity].
Qed.

Lemma step_keeps_order c op :
  strategy c <> LRU ->
  exists kept added,
    keys (cache (step c op)) = kept ++ added /\
    sublist kept (keys (cache c)) /\
    (added = [] \/ exists k, added = [k] /\ ~ In k kept).
Proof.
  intros Hs. destruct op; simpl.
  - unfold set. simpl. rewrite keys_setitem.
    match goal with |- context [contains key (cache ?c1)] => set (c1' := c1) end.
    assert (Hsub : sublist (keys (cache c1')) (keys (cache c))).
    { subst c1'. destruct (Z.of_nat (length (cache c)) >=? max_size c);
        [apply evict_keys_sublist | reflexivity]. }
    unfold contains. destruct (getitem key (cache c1')) eqn:E.
    + exists (keys (cache c1')), []. rewrite app_nil_r. auto.
    + exists (keys (cache c1')), [key]. repeat split; auto.
      right. exists key. split; [reflexivity|]. now apply getitem_None_keys.
  - unfold get. destruct (getitem key (cache c)) as [item|] eqn:E; simpl.
    + destruct (now >? expires item); simpl.
      * exists (keys (delitem key (cache c))), []. rewrite app_nil_r.
        split; [reflexivity|]. split; [apply keys_delitem_sublist | now left].
      * destruct (String.eqb_spec (strategy c) LRU); [contradiction|].
        rewrite keys_setitem. unfold contains. rewrite E.
        exists (keys (cache c)), []. rewrite app_nil_r. auto.
    + exists (keys (cache c)), []. rewrite app_nil_r. auto.
  - exists (keys (cache (fst (evict c)))), []. rewrite app_nil_r.
    split; [reflexivity|]. split; [apply evict_keys_sublist | now left].
  - unfold delete. destruct (contains key (cache c)); simpl.
    + exists (keys (delitem key (cache c))), []. rewrite app_nil_r.
      split; [reflexivity|]. split; [apply keys_delitem_sublist | now left].
    + exists (keys (cache c)), []. rewrite app_nil_r. auto.
Qed.

(** The counters. *)
Lemma get_counters c key now now2 :
  let c' := fst (get c key now now2) in
  (hit_count c' = hit_count c + 1 /\ miss_count c' = miss_count c) \/
  (hit_count c' = hit_count c /\ miss_count c' = miss_count c + 1).
Proof.
  unfold get. destruct (getitem key (cache c)) as [item|]; simpl; [|now right].
  destruct (now >? expires item); simpl; [now right | now left].
Qed.

Lemma other_counters c op :
  is_get op = false ->
  hit_count (step c op) = hit_count c /\ miss_count (step c op) = miss_count c.
Proof.
  destruct op; simpl; intros H; try discriminate.
  - pose proof (set_frame c key v custom_ttl now1 now2). simpl in *. tauto.
  - pose proof (evict_frame c). simpl in *. tauto.
  - pose proof (delete_frame c key). simpl in *. tauto.
Qed.

Lemma run_counters c ops :
  hit_count (run c ops) + miss_count (run c ops) =
  hit_count c + miss_count c + count_gets ops.
Proof.
  revert c. induction ops as [|op ops IH]; intros c; simpl; [lia|].
  rewrite IH. destruct (is_get op) eqn:E.
  - destruct op; try discriminate. simpl.
    pose proof (get_counters c key now now2) as H. simpl in H. lia.
  - destruct (other_counters c op E) as [-> ->]. lia.
Qed.

End StepFacts.

(** ** The cache properties of the specification *)

Section Claims.
Import OrderedDict CacheSimulator.
Context {Value : Type}.
Implicit Types (c : t Value) (key : string) (op : call Value).

(** C1.  A cache built with a positive capacity never holds more entries
    than its capacity: the bound holds in the state left by every call of
    any sequence of calls, so in particular after every [set] of a sequence
    of [set] calls, whatever their keys, values and ttl arguments. *)
Theorem set_capacity_bound (max_size ttl : Z) (r : nat) (ops : list (call Value)) :
  0 < max_size ->
  Forall (fun c => Z.of_nat (length (cache c)) <= max_size)
         (trace (new max_size ttl r) ops).
Proof.
  intros Hpos.
  apply (trace_bounded (new max_size ttl r) ops Hpos).
  unfold bounded. simpl. lia.
Qed.

(** C2.  After any sequence of [set], [get], [evict] and deletions on a new
    cache, [hit_count + miss_count] is the number of [get] calls; each
    [get] adds one to exactly one of the two counters, and no other call
    changes either. *)
Theorem hits_plus_misses_count_gets :
  (forall (max_size ttl : Z) (r : nat) (ops : list (call Value)),
      hit_count (run (new max_size ttl r) ops)
      + miss_count (run (new max_size ttl r) ops) = count_gets ops) /\
  (forall c key now now2,
      (hit_count (fst (get c key now now2)) = hit_count c + 1 /\
       miss_count (fst (get c key now now2)) = miss_count c) \/
      (hit_count (fst (get c key now now2)) = hit_count c /\
       miss_count (fst (get c key now now2)) = miss_count c + 1)) /\
  (forall c op,
      is_get op = false ->
      hit_count (step c op) = hit_count c /\ miss_count (step c op) = miss_count c).
Proof.
  split; [|split].
  - intros. rewrite run_counters. simpl. lia.
  - intros. apply get_counters.
  - intros. now apply other_counters.
Qed.

(** C3, amended.  For a key present in the store (a dict: keys are unique), a
    [get] whose clock reading is strictly later than [expires] returns
    [None], deletes that entry and nothing else, so that the key is gone,
    adds one to [miss_count] and to [eviction_count], and leaves [hit_count]
    alone. *)
Theorem get_after_expiry c key item now now2 :
  wf c ->
  getitem key (cache c) = Some item ->
  expires item < now ->
  snd (get c key now now2) = None /\
  contains key (cache (fst (get c key now now2))) = false /\
  cache (fst (get c key now now2)) = delitem key (cache c) /\
  S (length (cache (fst (get c key now now2)))) = length (cache c) /\
  miss_count (fst (get c key now now2)) = miss_count c + 1 /\
  eviction_count (fst (get c key now now2)) = eviction_count c + 1 /\
  hit_count (fst (get c key now now2)) = hit_count c.
Proof.
  intros Hwf Hget Hexp. unfold get. rewrite Hget.
  destruct (Z.gtb_spec now (expires item)); [simpl | lia].
  repeat split.
  - unfold contains. now rewrite getitem_delitem_eq.
  - now apply length_delitem with (a := item).
Qed.

(** C4, amended.  [set(k, v, 0)] stores [k] with the default ttl, because
    [0 or self.ttl] is [self.ttl].  The [get(k)] that follows returns
    [None] and counts a miss and an eviction when its clock reading is
    later than the [set]'s reading plus the default ttl; otherwise it
    returns [v] and counts a hit only. *)
Theorem set_ttl_zero_then_get c key (v : Value) now1 now2 now now' :
  let c1 := fst (set c key v (Some 0) now1 now2) in
  let c2 := fst (get c1 key now now') in
  let res := snd (get c1 key now now') in
  if now >? now1 + ttl c then
    res = None /\ miss_count c2 = miss_count c1 + 1 /\
    eviction_count c2 = eviction_count c1 + 1 /\ hit_count c2 = hit_count c1
  else
    res = Some v /\ hit_count c2 = hit_count c1 + 1 /\
    miss_count c2 = miss_count c1 /\ eviction_count c2 = eviction_count c1.
Proof.
  intros c1 c2 res. subst c2 res.
  assert (Hget : getitem key (cache c1) = Some (mkItem v (now1 + ttl c) now2 0 None)).
  { subst c1. unfold set. simpl. rewrite getitem_setitem_eq.
    destruct (evict_frame c) as (_ & Ettl & _).
    destruct (Z.of_nat (length (cache c)) >=? max_size c); [rewrite Ettl|]; reflexivity. }
  unfold get. rewrite Hget. simpl.
  destruct (now >? now1 + ttl c); simpl; repeat split.
Qed.

(** C5, amended.  Construction takes [max_size] and [ttl] and always
    returns a cache, whatever the capacity.  The strategy is not an
    argument: it is drawn from lru, lfu, fifo, ttl.  No call changes the
    strategy, the capacity or the ttl afterwards. *)
Theorem init_returns (max_size ttl : Z) (r : nat) :
  exists c : t Value,
    __init__ max_size ttl r = Py.Returned c /\
    CacheSimulator.max_size c = max_size /\ CacheSimulator.ttl c = ttl /\
    cache c = [] /\
    In (strategy c) [LRU; LFU; FIFO; TTL] /\
    forall ops : list (call Value),
      strategy (run c ops) = strategy c /\
      CacheSimulator.max_size (run c ops) = max_size /\
      CacheSimulator.ttl (run c ops) = ttl.
Proof.
  exists (new max_size ttl r).
  do 4 (split; [reflexivity|]). split.
  - unfold new, Py.choice. cbn [strategy]. apply nth_In.
    apply Nat.mod_upper_bound. simpl. discriminate.
  - intros ops.
    destruct (run_frame (new max_size ttl r) ops) as (Hm & Ht & Hs & _).
    auto.
Qed.

(** C6, amended.  [set] evicts one entry through the active policy, and
    adds one to [eviction_count], exactly when the store is not empty and
    holds at least [max_size] entries, whether or not the key is already
    present; otherwise it evicts nothing and leaves [eviction_count] alone.
    In both cases the entry is then written. *)
Theorem set_evicts_when_full c key (v : Value) custom_ttl now1 now2 :
  let c' := fst (set c key v custom_ttl now1 now2) in
  let item := mkItem v (now1 + Py.or_ custom_ttl (ttl c)) now2 0 None in
  if (Z.of_nat (length (cache c)) >=? max_size c)
     && negb (Nat.eqb (length (cache c)) 0)
  then
    exists victim,
      snd (evict c) = Some victim /\
      eviction_count c' = eviction_count c + 1 /\
      cache c' = setitem key item (cache (fst (evict c)))
  else
    eviction_count c' = eviction_count c /\
    cache c' = setitem key item (cache c).
Proof.
  intros c' item. subst c' item. unfold set. simpl.
  destruct (evict_frame c) as (_ & Ettl & _).
  destruct (Z.of_nat (length (cache c)) >=? max_size c); simpl; [|split; reflexivity].
  destruct (cache c) as [|p d] eqn:E; simpl.
  - rewrite (evict_empty c E). simpl. rewrite E. split; reflexivity.
  - assert (Hne : cache c <> []) by (rewrite E; discriminate).
    destruct (evict_nonempty c Hne) as (victim & it & d1 & d2 & _ & _ & _ & Ee).
    exists victim. rewrite Ee. simpl. repeat split.
Qed.

(** C8.  Under the lfu strategy, [evict] on a non-empty store removes a
    key whose entry has the least [accessed] field among the stored entries;
    the entry of every key in front of it in the store's order (the keys
    that entered the store earlier and are still present) has a strictly
    larger [accessed], so among the keys with the least count the earliest
    inserted one goes. *)
Theorem evict_lfu_victim c :
  strategy c = LFU ->
  cache c <> [] ->
  exists victim item pre post,
    snd (evict c) = Some victim /\
    getitem victim (cache c) = Some item /\
    keys (cache c) = pre ++ victim :: post /\
    ~ In victim pre /\
    (forall k it, getitem k (cache c) = Some it -> accessed item <= accessed it) /\
    (forall k it, In k pre -> getitem k (cache c) = Some it ->
                  accessed item < accessed it) /\
    keys (cache (fst (evict c))) = pre ++ post.
Proof.
  intros Hs Hne.
  destruct (evict_nonempty c Hne) as (victim & it & d1 & d2 & Ec & Hni & Hch & Ee).
  unfold chosen_by in Hch. rewrite Hs in Hch.
  change (String.eqb LFU LRU) with false in Hch.
  change (String.eqb LFU LFU) with true in Hch.
  destruct Hch as [Hmin Hfirst].
  assert (Hv : getitem victim (cache c) = Some it).
  { rewrite Ec, getitem_app.
    assert (Hd1 : getitem victim d1 = None) by now apply getitem_None_keys.
    rewrite Hd1. simpl. now rewrite String.eqb_refl. }
  assert (Hacc : accessed_of (cache c) victim = accessed it).
  { unfold accessed_of. now rewrite Hv. }
  exists victim, it, (keys d1), (keys d2). rewrite Ee. simpl.
  split; [reflexivity|]. split; [exact Hv|]. split.
  { rewrite Ec. unfold keys. rewrite map_app. reflexivity. }
  split; [exact Hni|]. split; [|split].
  - intros k it' Hk. rewrite <- Hacc.
    assert (Hk' : accessed_of (cache c) k = accessed it').
    { unfold accessed_of. now rewrite Hk. }
    rewrite <- Hk'. apply Hmin. eapply getitem_In_keys; eauto.
  - intros k it' Hin Hk. rewrite <- Hacc.
    assert (Hk' : accessed_of (cache c) k = accessed it').
    { unfold accessed_of. now rewrite Hk. }
    rewrite <- Hk'. now apply Hfirst.
  - unfold keys. rewrite map_app. reflexivity.
Qed.

(** C9.  [evict] on an empty store returns [None] and leaves the whole
    state as it was.  On a non-empty store it returns the key picked by the
    branch of the active strategy (the first key for lru and fifo, the
    first key with the least [accessed] for lfu, the first key with the
    least [expires] otherwise), removes that one entry and no other, and
    adds one to [eviction_count].  It is a total function: nothing is
    raised. *)
Theorem evict_result c :
  match cache c with
  | [] => evict c = (c, None)
  | _ :: _ =>
      exists victim item d1 d2,
        snd (evict c) = Some victim /\
        cache c = d1 ++ (victim, item) :: d2 /\
        ~ In victim (keys d1) /\
        chosen_by (strategy c) (cache c) (keys d1) victim /\
        cache (fst (evict c)) = d1 ++ d2 /\
        S (length (cache (fst (evict c)))) = length (cache c) /\
        eviction_count (fst (evict c)) = eviction_count c + 1 /\
        hit_count (fst (evict c)) = hit_count c /\
        miss_count (fst (evict c)) = miss_count c
  end.
Proof.
  destruct (cache c) as [|p d] eqn:E.
  - now apply evict_empty.
  - rewrite <- E. assert (Hne : cache c <> []) by (rewrite E; discriminate).
    destruct (evict_nonempty c Hne) as (victim & it & d1 & d2 & Ec & Hni & Hch & Ee).
    exists victim, it, d1, d2.
    pose proof (evict_length c Hne) as Hlen.
    rewrite Ee in *. simpl in *. repeat split; auto.
Qed.

End Claims.

(** ** The scenarios, evaluated *)

Section Evaluated.
Import OrderedDict CacheSimulator Scenarios.

(** C1 at capacity 2 on the mixed run. *)
Lemma set_capacity_bound_witness :
  0 < 2 /\
  Forall (fun c => Z.of_nat (length (cache c)) <= 2) (trace (new 2 300 0) mixed_calls).
Proof.
  split; [lia|]. apply (set_capacity_bound 2 300 0 mixed_calls). lia.
Defined.

(** C3 as stated fails when the clock reading equals [expires]: the entry
    that expires at 10 is still returned, and counted as a hit, by a [get]
    at 10. *)
Lemma get_at_expiry_hits :
  getitem k (cache expiring_at_10) = Some (mkItem 7 10 0 0 None) /\
  10 >= expires (mkItem 7 10 0 0 None) /\
  snd (get expiring_at_10 k 10 10) = Some 7 /\
  hit_count (fst (get expiring_at_10 k 10 10)) = hit_count expiring_at_10 + 1 /\
  miss_count (fst (get expiring_at_10 k 10 10)) = miss_count expiring_at_10 /\
  eviction_count (fst (get expiring_at_10 k 10 10)) = eviction_count expiring_at_10 /\
  contains k (cache (fst (get expiring_at_10 k 10 10))) = true.
Proof. vm_compute. repeat split; discriminate. Qed.

(** C3, amended, one tick later. *)
Lemma get_after_expiry_witness :
  wf expiring_at_10 /\
  getitem k (cache expiring_at_10) = Some (mkItem 7 10 0 0 None) /\
  expires (mkItem 7 10 0 0 None) < 11 /\
  snd (get expiring_at_10 k 11 11) = None /\
  contains k (cache (fst (get expiring_at_10 k 11 11))) = false /\
  miss_count (fst (get expiring_at_10 k 11 11)) = miss_count expiring_at_10 + 1 /\
  eviction_count (fst (get expiring_at_10 k 11 11)) = eviction_count expiring_at_10 + 1.
Proof.
  assert (H0 : wf expiring_at_10) by (apply run_wf, new_wf).
  assert (H1 : getitem k (cache expiring_at_10) = Some (mkItem 7 10 0 0 None))
    by reflexivity.
  assert (H2 : expires (mkItem 7 10 0 0 None) < 11) by (simpl; lia).
  pose proof (get_after_expiry expiring_at_10 k _ 11 11 H0 H1 H2) as H.
  tauto.
Defined.

(** C4 as stated fails: after [set(k, 7, 0)] at reading 100 the [get] at
    the same reading returns 7; neither [miss_count] nor [eviction_count]
    moves. *)
Lemma set_ttl_zero_then_get_hits :
  snd (get after_set_ttl_0 k 100 100) = Some 7 /\
  miss_count (fst (get after_set_ttl_0 k 100 100)) = miss_count after_set_ttl_0 /\
  eviction_count (fst (get after_set_ttl_0 k 100 100)) = eviction_count after_set_ttl_0 /\
  hit_count (fst (get after_set_ttl_0 k 100 100)) = hit_count after_set_ttl_0 + 1.
Proof. vm_compute. repeat split. Qed.

(** C5 as stated fails: capacity 0 is accepted. *)
Lemma init_accepts_zero_capacity :
  exists c0 : t Z, __init__ 0 300 0 = Py.Returned c0 /\ max_size c0 <= 0.
Proof. exists (new 0 300 0). split; [reflexivity | simpl; lia]. Qed.

(** C6 as stated fails: overwriting [a] in the full FIFO cache evicts (here
    [a] itself, which is then written again behind [b]) and counts the
    eviction. *)
Lemma overwrite_at_capacity_evicts :
  contains a (cache full_fifo) = true /\
  keys (cache full_fifo) = [a; b] /\
  eviction_count (fst (set full_fifo a 3 None 2 2)) = eviction_count full_fifo + 1 /\
  keys (cache (fst (set full_fifo a 3 None 2 2))) = [b; a].
Proof. vm_compute. repeat split. Qed.

(** C7 on the code: in the capacity-3 LRU scenario the overwriting
    [set(a, v')] leaves [a] in front, and the next eviction removes [a],
    not [b]. *)
Lemma lru_overwrite_evicts_a :
  strategy lru_overwrite = LRU /\
  keys (cache lru_overwrite) = [a; b; c] /\
  snd (evict lru_overwrite) = Some a /\
  keys (cache (fst (evict lru_overwrite))) = [b; c].
Proof. vm_compute. repeat split. Qed.

(** C8 on the LFU cache where [a] was read once: [b] goes, the first of the
    two keys never read, although [a] is in front of it. *)
Lemma evict_lfu_victim_witness :
  strategy lfu_three = LFU /\
  cache lfu_three <> [] /\
  keys (cache lfu_three) = [a; b; c] /\
  snd (evict lfu_three) = Some b /\
  getitem b (cache lfu_three) = Some item_b /\
  (forall k' it, getitem k' (cache lfu_three) = Some it ->
                 accessed item_b <= accessed it) /\
  (forall it, getitem a (cache lfu_three) = Some it -> accessed item_b < accessed it) /\
  keys (cache (fst (evict lfu_three))) = [a; c].
Proof.
  assert (H1 : strategy lfu_three = LFU) by reflexivity.
  assert (H2 : cache lfu_three <> []) by (vm_compute; discriminate).
  assert (Hk : keys (cache lfu_three) = [a; b; c]) by reflexivity.
  assert (Hb : getitem b (cache lfu_three) = Some item_b) by reflexivity.
  destruct (evict_lfu_victim lfu_three H1 H2)
    as (victim & item & pre & post & Hv & Hget & Hkeys & Hni & Hmin & Hfirst & Hrest).
  assert (Ev : snd (evict lfu_three) = Some b) by reflexivity.
  rewrite Ev in Hv. injection Hv as <-.
  rewrite Hb in Hget. injection Hget as <-.
  assert (Hpre : pre = [a] /\ post = [c]).
  { rewrite Hk in Hkeys. destruct pre as [|p0 [|p1 pre]]; simpl in Hkeys.
    - discriminate.
    - injection Hkeys as <- <-. auto.
    - injection Hkeys as <- <- _. exfalso. apply Hni. right. now left. }
  destruct Hpre as [-> ->].
  repeat split; try assumption.
  - intros it Ha. apply (Hfirst a it); [now left | exact Ha].
Defined.

(** C10 as stated fails: a negative custom ttl stores an entry that expires
    before it was created. *)
Lemma negative_ttl_entry :
  getitem k (cache negative_ttl) = Some (mkItem 7 95 100 0 None) /\
  ~ expires (mkItem 7 95 100 0 None) > created (mkItem 7 95 100 0 None).
Proof. split; [reflexivity | simpl; lia]. Qed.

End Evaluated.

(** ** What a call does to the entries *)

Section EntryFacts.
Import OrderedDict CacheSimulator.
Context {Value : Type}.
Implicit Types (c : t Value) (key k : string) (op : call Value).

Lemma evict_getitem_other c k :
  snd (evict c) <> Some k ->
  getitem k (cache (fst (evict c))) = getitem k (cache c).
Proof.
  intros Hk. destruct (cache c) eqn:E.
  - rewrite evict_empty by assumption. simpl. now rewrite E.
  - rewrite <- E. assert (Hne : cache c <> []) by (rewrite E; discriminate).
    destruct (evict_nonempty c Hne) as (v & it & d1 & d2 & Ec & _ & _ & Ee).
    rewrite Ee in *. simpl in *. rewrite Ec. symmetry.
    apply getitem_split_ne. congruence.
Qed.

Lemma evict_getitem_victim c k :
  wf c -> snd (evict c) = Some k -> getitem k (cache (fst (evict c))) = None.
Proof.
  unfold wf. intros Hwf Hk. destruct (cache c) eqn:E.
  - rewrite evict_empty in Hk by assumption. discriminate.
  - rewrite <- E in Hwf. assert (Hne : cache c <> []) by (rewrite E; discriminate).
    destruct (evict_nonempty c Hne) as (v & it & d1 & d2 & Ec & _ & _ & Ee).
    rewrite Ee in *. simpl in *. injection Hk as <-.
    rewrite Ec in Hwf. eapply getitem_split_eq; eauto.
Qed.

(** Under lru and under fifo [evict] takes the entry in front. *)
Lemma evict_front c k0 it0 rest :
  strategy c = LRU \/ strategy c = FIFO ->
  cache c = (k0, it0) :: rest ->
  snd (evict c) = Some k0 /\ cache (fst (evict c)) = rest.
Proof.
  intros Hs Hc. unfold evict. rewrite Hc.
  destruct Hs as [-> | ->].
  - change (String.eqb LRU LRU) with true. simpl. auto.
  - change (String.eqb FIFO LRU) with false. change (String.eqb FIFO LFU) with false.
    change (String.eqb FIFO FIFO) with true. simpl. rewrite String.eqb_refl. auto.
Qed.

Lemma get_other_entries c key now now2 k :
  k <> key ->
  getitem k (cache (fst (get c key now now2))) = getitem k (cache c).
Proof.
  intros Hk. unfold get. destruct (getitem key (cache c)) as [item|]; [|reflexivity].
  destruct (now >? expires item); simpl.
  - apply getitem_delitem_ne. congruence.
  - destruct (String.eqb (strategy c) LRU).
    + rewrite getitem_move_to_end_ne by congruence.
      apply getitem_setitem_ne. congruence.
    + apply getitem_setitem_ne. congruence.
Qed.

(** A [get] that finds a live entry returns its value, bumps [accessed] and
    [last_access] of that entry, the hit counter and [access_count[key]],
    and leaves the other entries, the size and the other counters alone. *)
Theorem get_live c key item now now2 :
  wf c ->
  getitem key (cache c) = Some item ->
  now <= expires item ->
  snd (get c key now now2) = Some (value item) /\
  getitem key (cache (fst (get c key now now2))) =
    Some (mkItem (value item) (expires item) (created item)
                 (accessed item + 1) (Some now2)) /\
  (forall k, k <> key ->
     getitem k (cache (fst (get c key now now2))) = getitem k (cache c)) /\
  length (cache (fst (get c key now now2))) = length (cache c) /\
  hit_count (fst (get c key now now2)) = hit_count c + 1 /\
  miss_count (fst (get c key now now2)) = miss_count c /\
  eviction_count (fst (get c key now now2)) = eviction_count c /\
  access_count (fst (get c key now now2)) !! key =
    Some (default 0 (access_count c !! key) + 1).
Proof.
  intros Hwf Hget Hlive. unfold get. rewrite Hget.
  destruct (Z.gtb_spec now (expires item)); [lia|]. simpl.
  set (item' := mkItem (value item) (expires item) (created item)
                       (accessed item + 1) (Some now2)).
  assert (Hlen : length (setitem key item' (cache c)) = length (cache c)).
  { rewrite length_setitem. unfold contains. now rewrite Hget. }
  split; [reflexivity|]. split; [|split; [|split]].
  - destruct (String.eqb (strategy c) LRU).
    + rewrite move_to_end_setitem, getitem_app.
      rewrite getitem_delitem_eq by exact Hwf. simpl.
      now rewrite String.eqb_refl.
    + apply getitem_setitem_eq.
  - intros k Hk. destruct (String.eqb (strategy c) LRU).
    + rewrite getitem_move_to_end_ne by congruence.
      apply getitem_setitem_ne. congruence.
    + apply getitem_setitem_ne. congruence.
  - destruct (String.eqb (strategy c) LRU);
      [rewrite length_move_to_end|]; exact Hlen.
  - repeat split. apply lookup_insert_eq.
Qed.

(** No [get] touches the entry of another key. *)
Theorem get_keeps_other_entries c key now now2 k :
  k <> key ->
  getitem k (cache (fst (get c key now now2))) = getitem k (cache c).
Proof.
  intros Hk. unfold get. destruct (getitem key (cache c)) as [item|]; [|reflexivity].
  destruct (now >? expires item); simpl.
  - apply getitem_delitem_ne. congruence.
  - destruct (String.eqb (strategy c) LRU).
    + rewrite getitem_move_to_end_ne by congruence.
      apply getitem_setitem_ne. congruence.
    + apply getitem_setitem_ne. congruence.
Qed.

(** What [set] stores is what the next [get] of that key finds: the value
    comes back as long as the clock reading of [get] is not later than the
    first reading of [set] plus the ttl in force; later, the entry is
    dropped.  The stored entry starts with [accessed = 0]. *)
Theorem set_then_get c key (v : Value) custom_ttl now1 now2 now now' :
  let c1 := fst (set c key v custom_ttl now1 now2) in
  getitem key (cache c1) =
    Some (mkItem v (now1 + Py.or_ custom_ttl (ttl c)) now2 0 None) /\
  snd (get c1 key now now') =
    if now >? now1 + Py.or_ custom_ttl (ttl c) then None else Some v.
Proof.
  intros c1.
  assert (Hget : getitem key (cache c1) =
                 Some (mkItem v (now1 + Py.or_ custom_ttl (ttl c)) now2 0 None)).
  { subst c1. unfold set. simpl. rewrite getitem_setitem_eq.
    destruct (evict_frame c) as (_ & Ettl & _).
    destruct (Z.of_nat (length (cache c)) >=? max_size c); [rewrite Ettl|]; reflexivity. }
  split; [exact Hget|]. unfold get. rewrite Hget. simpl.
  destruct (now >? now1 + Py.or_ custom_ttl (ttl c)); reflexivity.
Qed.

(** [set] changes the entry of its own key and removes at most the victim
    of the eviction it triggers: every other entry is as before. *)
Theorem set_keeps_other_entries c key (v : Value) custom_ttl now1 now2 k :
  k <> key ->
  Z.of_nat (length (cache c)) < max_size c \/ snd (evict c) <> Some k ->
  getitem k (cache (fst (set c key v custom_ttl now1 now2))) = getitem k (cache c).
Proof.
  intros Hk Hcase. unfold set. simpl.
  rewrite getitem_setitem_ne by congruence.
  destruct (Z.geb_spec (Z.of_nat (length (cache c))) (max_size c)) as [Hge|Hlt];
    [|reflexivity].
  destruct Hcase as [Hlt | Hv]; [lia|]. now apply evict_getitem_other.
Qed.

(** The deletion of the workload removes the key, is not counted as an
    eviction, and leaves the other entries and the counters alone; the
    [get] that follows is a miss. *)
Theorem delete_removes c key now now2 :
  wf c ->
  getitem key (cache (delete c key)) = None /\
  (forall k, k <> key -> getitem k (cache (delete c key)) = getitem k (cache c)) /\
  eviction_count (delete c key) = eviction_count c /\
  hit_count (delete c key) = hit_count c /\
  miss_count (delete c key) = miss_count c /\
  snd (get (delete c key) key now now2) = None /\
  miss_count (fst (get (delete c key) key now now2)) = miss_count c + 1 /\
  eviction_count (fst (get (delete c key) key now now2)) = eviction_count c.
Proof.
  intros Hwf.
  assert (Hnone : getitem key (cache (delete c key)) = None).
  { unfold delete, contains. destruct (getitem key (cache c)) eqn:E; simpl.
    - now apply getitem_delitem_eq.
    - exact E. }
  assert (Hfr : eviction_count (delete c key) = eviction_count c /\
                hit_count (delete c key) = hit_count c /\
                miss_count (delete c key) = miss_count c).
  { unfold delete. destruct (contains key (cache c)); repeat split. }
  destruct Hfr as (He & Hh & Hm).
  split; [exact Hnone|]. split.
  - intros k Hk. unfold delete. destruct (contains key (cache c)); simpl; [|reflexivity].
    apply getitem_delitem_ne. congruence.
  - repeat split; try assumption; unfold get; rewrite Hnone; simpl; congruence.
Qed.

End EntryFacts.

(** ** Eviction order *)

Section OrderFacts.
Import OrderedDict CacheSimulator.
Context {Value : Type}.
Implicit Types (c : t Value) (key k : string) (op : call Value).

(** Under lru a hit puts the key behind all the others, so the next
    eviction takes the oldest of the other keys and spares the key just
    read, as soon as the store holds another key. *)
Theorem lru_get_protects c key item now now2 :
  strategy c = LRU ->
  wf c ->
  getitem key (cache c) = Some item ->
  now <= expires item ->
  (1 < length (cache c))%nat ->
  keys (cache (fst (get c key now now2))) = keys (delitem key (cache c)) ++ [key] /\
  snd (evict (fst (get c key now now2))) = hd_error (keys (delitem key (cache c))) /\
  snd (evict (fst (get c key now now2))) <> Some key.
Proof.
  intros Hs Hwf Hget Hlive Hlen.
  set (item' := mkItem (value item) (expires item) (created item)
                       (accessed item + 1) (Some now2)).
  assert (Hc : cache (fst (get c key now now2)) = delitem key (cache c) ++ [(key, item')]).
  { unfold get. rewrite Hget. destruct (Z.gtb_spec now (expires item)); [lia|].
    simpl. rewrite Hs. change (String.eqb LRU LRU) with true.
    apply move_to_end_setitem. }
  assert (Hs' : strategy (fst (get c key now now2)) = LRU).
  { destruct (get_frame c key now now2) as (_ & _ & E & _). now rewrite E. }
  pose proof (length_delitem key (cache c) item Hget) as Hl.
  destruct (delitem key (cache c)) as [|[k0 it0] rest] eqn:Ed; [simpl in Hl; lia|].
  split; [rewrite Hc; unfold keys; now rewrite map_app|].
  destruct (evict_front (fst (get c key now now2)) k0 it0 (rest ++ [(key, item')])
              (or_introl Hs') Hc) as [Hv _].
  rewrite Hv. simpl. split; [reflexivity|].
  intros E. injection E as ->.
  pose proof (getitem_delitem_eq key (cache c) Hwf) as Hnone.
  rewrite Ed in Hnone. simpl in Hnone. rewrite String.eqb_refl in Hnone. discriminate.
Qed.

(** Under fifo a hit does not change which key the next eviction takes. *)
Theorem fifo_get_keeps_victim c key item now now2 :
  strategy c = FIFO ->
  getitem key (cache c) = Some item ->
  now <= expires item ->
  keys (cache (fst (get c key now now2))) = keys (cache c) /\
  snd (evict (fst (get c key now now2))) = snd (evict c).
Proof.
  intros Hs Hget Hlive.
  set (item' := mkItem (value item) (expires item) (created item)
                       (accessed item + 1) (Some now2)).
  assert (Hc : cache (fst (get c key now now2)) = setitem key item' (cache c)).
  { unfold get. rewrite Hget. destruct (Z.gtb_spec now (expires item)); [lia|].
    simpl. rewrite Hs. reflexivity. }
  assert (Hs' : strategy (fst (get c key now now2)) = FIFO).
  { destruct (get_frame c key now now2) as (_ & _ & E & _). now rewrite E. }
  assert (Hk : keys (cache (fst (get c key now now2))) = keys (cache c)).
  { rewrite Hc, keys_setitem. unfold contains. now rewrite Hget. }
  split; [exact Hk|].
  destruct (cache c) as [|[k0 it0] rest] eqn:Ec; [discriminate|].
  destruct (cache (fst (get c key now now2))) as [|[k1 it1] rest1] eqn:Ec1;
    [discriminate|].
  simpl in Hk. injection Hk as -> _.
  destruct (evict_front _ _ _ _ (or_intror Hs') Ec1) as [-> _].
  destruct (evict_front _ _ _ _ (or_intror Hs) Ec) as [-> _].
  reflexivity.
Qed.

(** With any strategy name other than lru, lfu and fifo (so with ttl),
    [evict] on a non-empty store removes a key whose entry has the least
    [expires] field among the stored entries; the entry of every key in
    front of it expires strictly later. *)
Theorem evict_ttl_victim c :
  strategy c <> LRU -> strategy c <> LFU -> strategy c <> FIFO ->
  cache c <> [] ->
  exists victim item pre post,
    snd (evict c) = Some victim /\
    getitem victim (cache c) = Some item /\
    keys (cache c) = pre ++ victim :: post /\
    ~ In victim pre /\
    (forall k it, getitem k (cache c) = Some it -> expires item <= expires it) /\
    (forall k it, In k pre -> getitem k (cache c) = Some it ->
                  expires item < expires it) /\
    keys (cache (fst (evict c))) = pre ++ post.
Proof.
  intros H1 H2 H3 Hne.
  destruct (evict_nonempty c Hne) as (victim & it & d1 & d2 & Ec & Hni & Hch & Ee).
  unfold chosen_by in Hch.
  destruct (String.eqb_spec (strategy c) LRU); [contradiction|].
  destruct (String.eqb_spec (strategy c) LFU); [contradiction|].
  destruct (String.eqb_spec (strategy c) FIFO); [contradiction|].
  destruct Hch as [Hmin Hfirst].
  assert (Hv : getitem victim (cache c) = Some it).
  { rewrite Ec, getitem_app.
    assert (Hd1 : getitem victim d1 = None) by now apply getitem_None_keys.
    rewrite Hd1. simpl. now rewrite String.eqb_refl. }
  assert (Hexp : expires_of (cache c) victim = expires it).
  { unfold expires_of. now rewrite Hv. }
  exists victim, it, (keys d1), (keys d2). rewrite Ee. simpl.
  split; [reflexivity|]. split; [exact Hv|]. split.
  { rewrite Ec. unfold keys. rewrite map_app. reflexivity. }
  split; [exact Hni|]. split; [|split].
  - intros k it' Hk. rewrite <- Hexp.
    assert (Hk' : expires_of (cache c) k = expires it').
    { unfold expires_of. now rewrite Hk. }
    rewrite <- Hk'. apply Hmin. eapply getitem_In_keys; eauto.
  - intros k it' Hin Hk. rewrite <- Hexp.
    assert (Hk' : expires_of (cache c) k = expires it').
    { unfold expires_of. now rewrite Hk. }
    rewrite <- Hk'. now apply Hfirst.
  - unfold keys. rewrite map_app. reflexivity.
Qed.

End OrderFacts.

(** ** Invariants of call sequences *)

Section RunFacts.
Import OrderedDict CacheSimulator.
Context {Value : Type}.
Implicit Types (c : t Value) (key k : string) (op : call Value).

(** [evict] trades one entry for one count. *)
Lemma evict_trade c :
  Z.of_nat (length (cache (fst (evict c)))) + eviction_count (fst (evict c)) =
  Z.of_nat (length (cache c)) + eviction_count c /\
  eviction_count c <= eviction_count (fst (evict c)).
Proof.
  destruct (cache c) eqn:E.
  - rewrite evict_empty by assumption. simpl. rewrite E. simpl. lia.
  - rewrite <- E. assert (Hne : cache c <> []) by (rewrite E; discriminate).
    pose proof (evict_length c Hne) as Hl.
    destruct (evict_nonempty c Hne) as (v & it & d1 & d2 & _ & _ & _ & Ee).
    rewrite Ee in *. simpl in *. lia.
Qed.

Lemma step_counters_grow c op :
  hit_count c <= hit_count (step c op) /\
  miss_count c <= miss_count (step c op) /\
  eviction_count c <= eviction_count (step c op).
Proof.
  destruct op; simpl.
  - pose proof (set_frame c key v custom_ttl now1 now2) as F. simpl in F.
    destruct F as (_ & _ & _ & _ & -> & ->).
    unfold set. simpl. pose proof (evict_trade c).
    destruct (Z.of_nat (length (cache c)) >=? max_size c); lia.
  - unfold get. destruct (getitem key (cache c)) as [item|]; simpl; [|lia].
    destruct (now >? expires item); simpl; lia.
  - pose proof (evict_frame c) as F. simpl in F.
    destruct F as (_ & _ & _ & _ & -> & -> & _). pose proof (evict_trade c). lia.
  - pose proof (delete_frame c key) as F. simpl in F.
    destruct F as (_ & _ & _ & _ & -> & -> & ->). lia.
Qed.

Lemma step_stores_bound c op :
  Z.of_nat (length (cache (step c op))) + eviction_count (step c op) <=
  Z.of_nat (length (cache c)) + eviction_count c + (if is_set op then 1 else 0).
Proof.
  destruct op; simpl.
  - unfold set. simpl. pose proof (evict_trade c) as [Ht _].
    match goal with |- context [setitem key ?it ?d] =>
      pose proof (length_setitem_le key it d) end.
    destruct (Z.of_nat (length (cache c)) >=? max_size c); lia.
  - unfold get. destruct (getitem key (cache c)) as [item|] eqn:E; simpl; [|lia].
    destruct (now >? expires item) eqn:Ex; simpl.
    + pose proof (length_delitem key (cache c) item E). lia.
    + pose proof (get_length_le c key now now2) as Hl.
      unfold get in Hl. rewrite E, Ex in Hl. simpl in Hl. lia.
  - pose proof (evict_trade c). lia.
  - unfold delete. destruct (contains key (cache c)); simpl; [|lia].
    pose proof (length_delitem_le key (cache c)). lia.
Qed.

Lemma counters_grow_aux c (ops : list (call Value)) :
  hit_count c <= hit_count (run c ops) /\
  miss_count c <= miss_count (run c ops) /\
  eviction_count c <= eviction_count (run c ops).
Proof.
  revert c. induction ops as [|op ops IH]; intros c; simpl; [lia|].
  pose proof (step_counters_grow c op). specialize (IH (step c op)). lia.
Qed.

(** The three counters never go down. *)
Theorem counters_never_decrease c (ops : list (call Value)) :
  hit_count c <= hit_count (run c ops) /\
  miss_count c <= miss_count (run c ops) /\
  eviction_count c <= eviction_count (run c ops).
Proof.
  revert c. induction ops as [|op ops IH]; intros c; simpl; [lia|].
  pose proof (step_counters_grow c op). specialize (IH (step c op)). lia.
Qed.

(** Entries in the store plus evictions counted never exceed the entries
    there were plus the [set] calls made: on a new cache, no more is evicted
    than was stored. *)
Theorem stores_bound_evictions c (ops : list (call Value)) :
  Z.of_nat (length (cache (run c ops))) + eviction_count (run c ops) <=
  Z.of_nat (length (cache c)) + eviction_count c + count_sets ops.
Proof.
  revert c. induction ops as [|op ops IH]; intros c; simpl; [lia|].
  pose proof (step_stores_bound c op). specialize (IH (step c op)). lia.
Qed.

Lemma run_bounded c (ops : list (call Value)) :
  0 < max_size c -> bounded c -> bounded (run c ops).
Proof.
  revert c. induction ops as [|op ops IH]; intros c Hpos Hb; simpl; [exact Hb|].
  apply IH.
  - destruct (step_frame c op) as (-> & _). exact Hpos.
  - now apply step_bounded.
Qed.

Lemma run_app c (ops1 ops2 : list (call Value)) :
  run c (ops1 ++ ops2) = run (run c ops1) ops2.
Proof. unfold run. apply fold_left_app. Qed.

Lemma step_untouched c op k :
  wf c -> key_of op <> Some k ->
  getitem k (cache (step c op)) = getitem k (cache c) \/
  getitem k (cache (step c op)) = None.
Proof.
  intros Hwf Hk.
  assert (Hev : getitem k (cache (fst (evict c))) = getitem k (cache c) \/
                getitem k (cache (fst (evict c))) = None).
  { destruct (option_eq_dec (snd (evict c)) (Some k)) as [E|E].
    - right. now apply evict_getitem_victim.
    - left. now apply evict_getitem_other. }
  destruct op; simpl in *.
  - unfold set. simpl. rewrite getitem_setitem_ne by congruence.
    destruct (Z.of_nat (length (cache c)) >=? max_size c); [exact Hev | now left].
  - left. apply get_other_entries. congruence.
  - exact Hev.
  - left. unfold delete. destruct (contains key (cache c)); simpl; [|reflexivity].
    apply getitem_delitem_ne. congruence.
Qed.

Lemma run_untouched c (ops : list (call Value)) k :
  wf c -> Forall (fun op => key_of op <> Some k) ops ->
  getitem k (cache (run c ops)) = getitem k (cache c) \/
  getitem k (cache (run c ops)) = None.
Proof.
  revert c. induction ops as [|op ops IH]; intros c Hwf Hops; simpl; [now left|].
  inversion Hops as [|? ? Hop Hops']; subst.
  destruct (IH (step c op) (step_wf c op Hwf) Hops') as [E|E]; [|now right].
  rewrite E. now apply step_untouched.
Qed.

(** An entry is changed only by calls on its own key: after calls that all
    name other keys it is either exactly as before or gone (evicted). *)
Theorem entry_untouched_by_other_keys c (ops : list (call Value)) k :
  wf c ->
  Forall (fun op => key_of op <> Some k) ops ->
  getitem k (cache (run c ops)) = getitem k (cache c) \/
  getitem k (cache (run c ops)) = None.
Proof.
  revert c. induction ops as [|op ops IH]; intros c Hwf Hops; simpl; [now left|].
  inversion Hops as [|? ? Hop Hops']; subst.
  destruct (IH (step c op) (step_wf c op Hwf) Hops') as [E|E]; [|now right].
  rewrite E. now apply step_untouched.
Qed.

End RunFacts.

(** ** The two access counts *)

Section AccessFacts.
Import OrderedDict CacheSimulator.
Context {Value : Type}.
Implicit Types (c : t Value) (key k : string) (op : call Value).

Lemma evict_getitem_sub c k it :
  wf c -> getitem k (cache (fst (evict c))) = Some it -> getitem k (cache c) = Some it.
Proof.
  intros Hwf H. destruct (option_eq_dec (snd (evict c)) (Some k)) as [E|E].
  - rewrite evict_getitem_victim in H by assumption. discriminate.
  - now rewrite evict_getitem_other in H.
Qed.

Lemma evict_access_inv c : wf c -> access_inv c -> access_inv (fst (evict c)).
Proof.
  intros Hwf [Hac Hit]. pose proof (evict_frame c) as F. simpl in F.
  destruct F as (_ & _ & _ & _ & Eh & _ & Ea). split.
  - intros k. rewrite Ea, Eh. apply Hac.
  - intros k it H. rewrite Ea. apply Hit. now apply evict_getitem_sub.
Qed.

Lemma step_access_inv c op : wf c -> access_inv c -> access_inv (step c op).
Proof.
  intros Hwf Hinv. destruct op; simpl.
  - unfold set. simpl.
    set (c1 := if Z.of_nat (length (cache c)) >=? max_size c then fst (evict c) else c).
    assert (H1 : access_inv c1).
    { subst c1. destruct (Z.of_nat (length (cache c)) >=? max_size c);
        [now apply evict_access_inv | exact Hinv]. }
    destruct H1 as [Hac Hit]. split; [exact Hac|]. simpl. intros k it H.
    destruct (String.eqb_spec key k) as [->|Hne].
    + rewrite getitem_setitem_eq in H. injection H as <-. simpl.
      specialize (Hac k). lia.
    + rewrite getitem_setitem_ne in H by assumption. now apply Hit.
  - destruct Hinv as [Hac Hit]. unfold get.
    destruct (getitem key (cache c)) as [item|] eqn:E; simpl; [|split; assumption].
    destruct (now >? expires item) eqn:Ex; simpl.
    + split; [exact Hac|]. simpl. intros k it H.
      destruct (String.eqb_spec key k) as [->|Hne].
      * rewrite getitem_delitem_eq in H by exact Hwf. discriminate.
      * rewrite getitem_delitem_ne in H by assumption. now apply Hit.
    + pose proof (Hit key item E) as Hitem.
      split; simpl.
      * intros k. destruct (String.eqb_spec key k) as [->|Hne].
        -- rewrite lookup_insert_eq. simpl. specialize (Hac k). lia.
        -- rewrite lookup_insert_ne by assumption. specialize (Hac k). lia.
      * intros k it H.
        assert (H' : getitem k (setitem key
                       (mkItem (value item) (expires item) (created item)
                               (accessed item + 1) (Some now2)) (cache c)) = Some it).
        { destruct (String.eqb (strategy c) LRU); [|exact H].
          destruct (String.eqb_spec key k) as [->|Hne].
          - rewrite move_to_end_setitem, getitem_app in H.
            rewrite getitem_delitem_eq in H by exact Hwf. simpl in H.
            rewrite String.eqb_refl in H. now rewrite getitem_setitem_eq.
          - now rewrite getitem_move_to_end_ne in H. }
        destruct (String.eqb_spec key k) as [->|Hne].
        -- rewrite getitem_setitem_eq in H'. injection H' as <-. simpl.
           rewrite lookup_insert_eq. simpl. lia.
        -- rewrite getitem_setitem_ne in H' by assumption.
           rewrite lookup_insert_ne by assumption. now apply Hit.
  - now apply evict_access_inv.
  - destruct Hinv as [Hac Hit]. unfold delete.
    destruct (contains key (cache c)); [|split; assumption].
    split; [exact Hac|]. simpl. intros k it H.
    destruct (String.eqb_spec key k) as [->|Hne].
    + rewrite getitem_delitem_eq in H by exact Hwf. discriminate.
    + rewrite getitem_delitem_ne in H by assumption. now apply Hit.
Qed.

Lemma run_access_inv c (ops : list (call Value)) :
  wf c -> access_inv c -> access_inv (run c ops).
Proof.
  revert c. induction ops as [|op ops IH]; intros c Hwf Hinv; simpl; [exact Hinv|].
  apply IH; [now apply step_wf | now apply step_access_inv].
Qed.

(** On a cache used from new, for every key, [access_count[key]] is at
    least the [accessed] field of the entry stored under the key (which
    [set] resets to 0) and at most [hit_count]; none of them is negative. *)
Theorem access_counts_ordered (max_size ttl : Z) (r : nat)
    (ops : list (call Value)) k :
  let c := run (new max_size ttl r) ops in
  0 <= default 0 (access_count c !! k) <= hit_count c /\
  forall it, getitem k (cache c) = Some it ->
             0 <= accessed it <= default 0 (access_count c !! k).
Proof.
  intros c.
  assert (H : access_inv c).
  { subst c. apply run_access_inv; [apply new_wf|]. split.
    - intros k'. simpl. rewrite lookup_empty. simpl. lia.
    - intros k' it H. simpl in H. discriminate. }
  destruct H as [Hac Hit]. split; [apply Hac | intros it; apply Hit].
Qed.

End AccessFacts.

(** ** Where the fields of an entry come from *)

Section Provenance.
Import OrderedDict CacheSimulator.
Context {Value : Type}.
Implicit Types (c : t Value) (key k : string) (op : call Value).

Lemma last_set_snoc k (ops : list (call Value)) op :
  last_set k (ops ++ [op]) =
  match op with
  | CallSet key v custom_ttl now1 now2 =>
      if String.eqb k key then Some (v, custom_ttl, now1, now2) else last_set k ops
  | _ => last_set k ops
  end.
Proof. unfold last_set. rewrite fold_left_app. simpl. destruct op; reflexivity. Qed.

Lemma step_provenance c (ops : list (call Value)) op :
  wf c ->
  (forall k it, getitem k (cache c) = Some it ->
     exists v custom_ttl now1 now2,
       last_set k ops = Some (v, custom_ttl, now1, now2) /\
       value it = v /\ expires it = now1 + Py.or_ custom_ttl (ttl c) /\
       created it = now2) ->
  forall k it, getitem k (cache (step c op)) = Some it ->
    exists v custom_ttl now1 now2,
      last_set k (ops ++ [op]) = Some (v, custom_ttl, now1, now2) /\
      value it = v /\ expires it = now1 + Py.or_ custom_ttl (ttl c) /\
      created it = now2.
Proof.
  intros Hwf IH k it H. rewrite last_set_snoc. destruct op; simpl in H.
  - unfold set in H. simpl in H.
    destruct (String.eqb_spec k key) as [->|Hne].
    + rewrite getitem_setitem_eq in H. injection H as <-. simpl.
      exists v, custom_ttl, now1, now2. repeat split.
      destruct (evict_frame c) as (_ & Ettl & _).
      destruct (Z.of_nat (length (cache c)) >=? max_size c); [rewrite Ettl|]; reflexivity.
    + rewrite getitem_setitem_ne in H by congruence. apply IH.
      destruct (Z.of_nat (length (cache c)) >=? max_size c);
        [now apply evict_getitem_sub | exact H].
  - unfold get in H. destruct (getitem key (cache c)) as [item|] eqn:E; simpl in H;
      [|now apply IH].
    destruct (now >? expires item); simpl in H.
    + destruct (String.eqb_spec key k) as [->|Hne].
      * rewrite getitem_delitem_eq in H by exact Hwf. discriminate.
      * rewrite getitem_delitem_ne in H by assumption. now apply IH.
    + assert (H' : getitem k (setitem key
                     (mkItem (value item) (expires item) (created item)
                             (accessed item + 1) (Some now2)) (cache c)) = Some it).
      { destruct (String.eqb (strategy c) LRU); [|exact H].
        destruct (String.eqb_spec key k) as [->|Hne].
        - rewrite move_to_end_setitem, getitem_app in H.
          rewrite getitem_delitem_eq in H by exact Hwf. simpl in H.
          rewrite String.eqb_refl in H. now rewrite getitem_setitem_eq.
        - now rewrite getitem_move_to_end_ne in H. }
      destruct (String.eqb_spec key k) as [->|Hne].
      * rewrite getitem_setitem_eq in H'. injection H' as <-. simpl.
        destruct (IH k item E) as (v & cu & n1 & n2 & Hl & Hv & He & Hc).
        exists v, cu, n1, n2. auto.
      * rewrite getitem_setitem_ne in H' by assumption. now apply IH.
  - apply IH. now apply evict_getitem_sub.
  - unfold delete in H. destruct (contains key (cache c)); simpl in H; [|now apply IH].
    destruct (String.eqb_spec key k) as [->|Hne].
    + rewrite getitem_delitem_eq in H by exact Hwf. discriminate.
    + rewrite getitem_delitem_ne in H by assumption. now apply IH.
Qed.

(** C10, amended.  After every call of any sequence on a new cache, every
    entry in the store carries what the latest [set] call on its key wrote:
    [expires] is that call's first clock reading plus its ttl (the
    [custom_ttl] when it is given and not zero, the default ttl otherwise),
    [created] its second clock reading, [value] its value.  No [get],
    [evict], deletion or [set] on another key changes them, and [set] checks
    no ttl: [expires > created] holds for an entry exactly when it holds for
    the two numbers that [set] call computed. *)
Theorem entries_carry_latest_set (max_size ttl : Z) (r : nat)
    (ops : list (call Value)) k it :
  getitem k (cache (run (new max_size ttl r) ops)) = Some it ->
  exists v custom_ttl now1 now2,
    last_set k ops = Some (v, custom_ttl, now1, now2) /\
    value it = v /\
    expires it = now1 + Py.or_ custom_ttl ttl /\
    created it = now2 /\
    (expires it > created it <-> now1 + Py.or_ custom_ttl ttl > now2).
Proof.
  assert (G : forall (ops : list (call Value)) k (it : Item Value),
             getitem k (cache (run (new max_size ttl r) ops)) = Some it ->
             exists v custom_ttl now1 now2,
               last_set k ops = Some (v, custom_ttl, now1, now2) /\
               value it = v /\ expires it = now1 + Py.or_ custom_ttl ttl /\
               created it = now2).
  { clear. intros ops. induction ops as [|op ops IH] using rev_ind; intros k it H.
    - simpl in H. discriminate.
    - rewrite run_app in H. simpl in H.
      destruct (run_frame (new max_size ttl r) ops) as (_ & Ettl & _).
      change (CacheSimulator.ttl (new max_size ttl r)) with ttl in Ettl.
      rewrite <- Ettl. eapply step_provenance; eauto.
      + apply run_wf, new_wf.
      + rewrite Ettl. exact IH. }
  intros H. destruct (G ops k it H) as (v & cu & n1 & n2 & Hl & Hv & He & Hc).
  exists v, cu, n1, n2. repeat split; try assumption; rewrite He, Hc; auto.
Qed.

End Provenance.

(** ** The workload driver *)

Section DriverFacts.
Import OrderedDict CacheSimulator.
Context {Value : Type}.
Implicit Types (c : t Value) (key k : string) (op : call Value).

Lemma In_firstn (n : nat) (l : list string) x : In x (firstn n l) -> In x l.
Proof. intros H. rewrite <- (firstn_skipn n l). apply in_or_app. now left. Qed.

Lemma In_slice_to n (l : list string) x : In x (Py.slice_to n l) -> In x l.
Proof. unfold Py.slice_to. destruct (0 <=? n); apply In_firstn. Qed.

Lemma In_list_remove x y (l : list string) : In y (Py.list_remove x l) -> In y l.
Proof.
  induction l as [|z l IH]; simpl; [tauto|].
  destruct (String.eqb x z); simpl; tauto.
Qed.

Lemma choice_In r (l : list string) : l <> [] -> In (Py.choice r l) l.
Proof.
  intros H. unfold Py.choice. apply nth_In. apply Nat.mod_upper_bound.
  destruct l; [contradiction | simpl; discriminate].
Qed.

Lemma length_slice_to n (l : list string) :
  0 <= n -> Z.of_nat (length (Py.slice_to n l)) <= n.
Proof.
  intros H. unfold Py.slice_to. destruct (Z.leb_spec 0 n); [|lia].
  pose proof (firstn_le_length (Z.to_nat n) l). lia.
Qed.

(** Keys of the two prefixes never coincide. *)
Lemma warm_key_not_cache_key (i : fill Value) : ~ is_cache_key (warm_key i).
Proof. intros [d E]. unfold warm_key, generate_key in E. simpl in E. discriminate. Qed.

Lemma evict_keys_In c x :
  In x (keys (cache (fst (evict c)))) -> In x (keys (cache c)).
Proof.
  destruct (cache c) eqn:E.
  - rewrite evict_empty by assumption. simpl. now rewrite E.
  - rewrite <- E. assert (Hne : cache c <> []) by (rewrite E; discriminate).
    destruct (evict_nonempty c Hne) as (v & it & d1 & d2 & Ec & _ & _ & Ee).
    rewrite Ee, Ec. simpl. unfold keys. rewrite !map_app. simpl.
    rewrite !in_app_iff. simpl. tauto.
Qed.

(** *** warmup *)

Lemma warmup_run c (inputs : list (fill Value)) :
  warmup c inputs = run c (map warm_call inputs).
Proof.
  revert c. induction inputs as [|i inputs IH]; intros c; simpl; [reflexivity|].
  apply IH.
Qed.

(** A [set] of a key that is not stored, on a cache within its bound. *)
Lemma set_new_key c key (v : Value) custom_ttl now1 now2 :
  0 < max_size c -> bounded c -> ~ In key (keys (cache c)) ->
  let c' := fst (set c key v custom_ttl now1 now2) in
  Z.of_nat (length (cache c')) = Z.min (Z.of_nat (length (cache c)) + 1) (max_size c) /\
  eviction_count c' =
    eviction_count c + Z.max 0 (Z.of_nat (length (cache c)) + 1 - max_size c) /\
  (forall x, In x (keys (cache c')) -> x = key \/ In x (keys (cache c))).
Proof.
  intros Hpos Hb Hnew. unfold bounded in Hb. unfold set. simpl.
  destruct (Z.geb_spec (Z.of_nat (length (cache c))) (max_size c)) as [Hge|Hlt].
  - assert (Hne : cache c <> []).
    { intros E. rewrite E in Hge. simpl in Hge. lia. }
    pose proof (evict_length c Hne) as Hl.
    pose proof (evict_trade c) as [Ht _].
    assert (Hnew' : getitem key (cache (fst (evict c))) = None).
    { apply getitem_None_keys. intros Hin. apply Hnew. now apply evict_keys_In. }
    rewrite length_setitem, keys_setitem. unfold contains. rewrite Hnew'.
    split; [lia|]. split; [lia|].
    intros x Hx. apply in_app_iff in Hx. destruct Hx as [Hx|[<-|[]]].
    + right. now apply evict_keys_In.
    + now left.
  - assert (Hnew' : getitem key (cache c) = None) by now apply getitem_None_keys.
    rewrite length_setitem, keys_setitem. unfold contains. rewrite Hnew'.
    split; [lia|]. split; [lia|].
    intros x Hx. apply in_app_iff in Hx. destruct Hx as [Hx|[<-|[]]]; auto.
Qed.

Lemma warmup_fill_count c (inputs : list (fill Value)) :
  0 < max_size c -> bounded c ->
  List.NoDup (map warm_key inputs) ->
  (forall i, In i inputs -> ~ In (warm_key i) (keys (cache c))) ->
  Z.of_nat (length (cache (warmup c inputs))) =
    Z.min (Z.of_nat (length (cache c)) + Z.of_nat (length inputs)) (max_size c) /\
  eviction_count (warmup c inputs) =
    eviction_count c +
    Z.max 0 (Z.of_nat (length (cache c)) + Z.of_nat (length inputs) - max_size c).
Proof.
  revert c. induction inputs as [|i inputs IH]; intros c Hpos Hb Hnd Hnew.
  - unfold bounded in Hb. simpl. lia.
  - simpl map in Hnd. inversion Hnd as [|? ? Hni Hnd']; subst.
    assert (Hi : ~ In (warm_key i) (keys (cache c))) by (apply Hnew; now left).
    destruct (set_new_key c (warm_key i) (fill_value i) (Some 3600)
                (fill_now1 i) (fill_now2 i) Hpos Hb Hi) as (Hlen & Hev & Hkeys).
    set (c' := fst (set c (warm_key i) (fill_value i) (Some 3600)
                        (fill_now1 i) (fill_now2 i))) in *.
    assert (Hm : max_size c' = max_size c).
    { subst c'. now destruct (set_frame c (warm_key i) (fill_value i) (Some 3600)
                                (fill_now1 i) (fill_now2 i)) as (-> & _). }
    assert (Hb' : bounded c').
    { subst c'. now apply set_bounded. }
    destruct (IH c') as (Hlen' & Hev').
    + now rewrite Hm.
    + exact Hb'.
    + exact Hnd'.
    + intros j Hj Hin. destruct (Hkeys _ Hin) as [E|Hin'].
      * apply Hni. rewrite <- E. now apply in_map.
      * apply (Hnew j); [now right | exact Hin'].
    + change (warmup c (i :: inputs)) with (warmup c' inputs).
      rewrite Hlen', Hev', Hm, Hlen, Hev. unfold bounded in Hb.
      simpl length. lia.
Qed.

(** On a new cache of positive capacity, [warmup] with [count] distinct
    keys leaves [min(count, max_size)] entries and has evicted the
    [count - max_size] that did not fit; it counts no hit and no miss. *)
Theorem warmup_fills (max_size ttl : Z) (r : nat) (inputs : list (fill Value)) :
  0 < max_size ->
  List.NoDup (map warm_key inputs) ->
  let c := warmup (new max_size ttl r) inputs in
  Z.of_nat (length (cache c)) = Z.min (Z.of_nat (length inputs)) max_size /\
  eviction_count c = Z.max 0 (Z.of_nat (length inputs) - max_size) /\
  hit_count c = 0 /\ miss_count c = 0.
Proof.
  intros Hpos Hnd c.
  destruct (warmup_fill_count (new max_size ttl r) inputs) as (Hlen & Hev); auto.
  { unfold bounded. simpl. lia. }
  subst c. split; [rewrite Hlen; simpl; f_equal; lia|].
  split; [rewrite Hev; simpl; f_equal; lia|].
  rewrite warmup_run.
  pose proof (run_counters (new max_size ttl r) (map warm_call inputs)) as Hc.
  pose proof (counters_grow_aux (new max_size ttl r) (map warm_call inputs)) as Hg.
  assert (Hz : count_gets (map warm_call inputs) = 0).
  { clear. induction inputs as [|i inputs IH]; simpl; [reflexivity | now rewrite IH]. }
  simpl in *. lia.
Qed.

End DriverFacts.

Section WorkloadFacts.
Import OrderedDict CacheSimulator.
Context {Value : Type}.
Implicit Types (c : t Value) (key k : string) (op : call Value).

Lemma warm_item_incl (l1 l2 : list (fill Value)) (it : Item Value) :
  incl l1 l2 -> warm_item l1 it -> warm_item l2 it.
Proof. intros Hincl (i & Hi & H). exists i. split; [now apply Hincl | exact H]. Qed.

Lemma warmup_items c (inputs all : list (fill Value)) :
  incl inputs all ->
  Forall (warm_item all) (map snd (cache c)) ->
  Forall (warm_item all) (map snd (cache (warmup c inputs))).
Proof.
  revert c. induction inputs as [|i inputs IH]; intros c Hincl Hc; simpl; [exact Hc|].
  apply IH; [intros x Hx; apply Hincl; now right|].
  unfold set. simpl. apply Forall_values_setitem.
  - exists i. split; [apply Hincl; now left|]. simpl. repeat split.
  - destruct (Z.of_nat (length (cache c)) >=? max_size c);
      [now apply evict_values | exact Hc].
Qed.

(** Every entry in the store after [warmup] on a new cache was written by
    one of its iterations with the ttl 3600, not the default ttl:
    [expires] is the iteration's first clock reading plus 3600, and the
    entry has never been read. *)
Theorem warmup_entries_ttl (max_size ttl : Z) (r : nat)
    (inputs : list (fill Value)) :
  Forall (warm_item inputs) (map snd (cache (warmup (new max_size ttl r) inputs))).
Proof. apply warmup_items; [apply incl_refl | constructor]. Qed.

(** *** simulate_workload *)

Lemma trim_keys_run c (ops : list (call Value)) (ks : list string) :
  (forall k, In k ks -> is_cache_key k) ->
  exists ks',
    trim_keys (run c ops, ks) = (run c ops, ks') /\
    (forall k, In k ks' -> is_cache_key k) /\
    (0 <= max_size c -> 2 * Z.of_nat (length ks') <= 3 * max_size c).
Proof.
  intros Hks. unfold trim_keys.
  destruct (run_frame c ops) as (Em & _). rewrite Em.
  eexists. split; [reflexivity|].
  destruct (Z.gtb_spec (2 * Z.of_nat (length ks)) (3 * max_size c)).
  - split.
    + intros k Hk. apply Hks. eapply In_slice_to; eauto.
    + intros Hm. pose proof (length_slice_to (max_size c) ks Hm). lia.
  - split; [exact Hks | lia].
Qed.

(** One iteration either makes at most one call on a generated key, or is
    a write whose random bits do not fit and raises OverflowError before
    anything is written. *)
Lemma workload_iteration_cases c (ks : list string) (d : draw Value) :
  (forall k, In k ks -> is_cache_key k) ->
  (exists ops ks',
     workload_iteration (c, ks) d = Py.Returned (run c ops, ks') /\
     (forall k, In k ks' -> is_cache_key k) /\
     (length ops <= 1)%nat /\
     cache_keyed ops /\
     (0 <= max_size c -> 2 * Z.of_nat (length ks') <= 3 * max_size c)) \/
  (workload_iteration (c, ks) d = Py.Raised "OverflowError" /\ ~ fits d).
Proof.
  intros Hks. unfold workload_iteration.
  assert (Hfin : forall (ops : list (call Value)) ks1,
             (forall k, In k ks1 -> is_cache_key k) ->
             (length ops <= 1)%nat -> cache_keyed ops ->
             exists ops' ks',
               Py.Returned (trim_keys (run c ops, ks1)) = Py.Returned (run c ops', ks') /\
               (forall k, In k ks' -> is_cache_key k) /\
               (length ops' <= 1)%nat /\ cache_keyed ops' /\
               (0 <= max_size c -> 2 * Z.of_nat (length ks') <= 3 * max_size c)).
  { intros ops ks1 Hks1 Hlen Hck.
    destruct (trim_keys_run c ops ks1 Hks1) as (ks' & E & Hks' & Hb).
    exists ops, ks'. rewrite E. auto. }
  destruct (below_read d && negb (Nat.eqb (length ks) 0)) eqn:Eread.
  - left. apply andb_prop in Eread. destruct Eread as [_ Hne].
    assert (Hks0 : ks <> []) by (destruct ks; [discriminate | discriminate]).
    apply (Hfin [CallGet (Py.choice (pick d) ks) (clock1 d) (clock2 d)] ks); auto.
    constructor; [|constructor]. eexists. split; [reflexivity|].
    apply Hks. now apply choice_In.
  - destruct (below_write d).
    + unfold generate_value, fits.
      destruct (Z.ltb_spec (bits d) (2 ^ (8 * (size d / 8)))) as [Hfit|Hover].
      * left.
        apply (Hfin [CallSet (generate_key "cache" (digest d)) (payload d) None
                             (clock1 d) (clock2 d)]
                    (ks ++ [generate_key "cache" (digest d)])); auto.
        -- intros k Hk. apply in_app_iff in Hk. destruct Hk as [Hk|[<-|[]]]; auto.
           now exists (digest d).
        -- constructor; [|constructor]. eexists. split; [reflexivity|].
           now exists (digest d).
      * right. split; [reflexivity | lia].
    + left. destruct (negb (Nat.eqb (length ks) 0)) eqn:Hne.
      * assert (Hks0 : ks <> []) by (destruct ks; [discriminate | discriminate]).
        apply (Hfin [CallDelete (Py.choice (pick d) ks)]
                    (Py.list_remove (Py.choice (pick d) ks) ks)); auto.
        -- intros k Hk. apply Hks. eapply In_list_remove; eauto.
        -- constructor; [|constructor]. eexists. split; [reflexivity|].
           apply Hks. now apply choice_In.
      * apply (Hfin [] ks); auto. constructor.
Qed.

Lemma count_gets_le (ops : list (call Value)) :
  0 <= count_gets ops <= Z.of_nat (length ops).
Proof.
  induction ops as [|op ops IH]; simpl; [lia|]. destruct (is_get op); lia.
Qed.

(** The loop is a sequence of calls on generated keys, at most one per
    iteration; it runs through or stops with OverflowError. *)
Lemma workload_from_run (draws : list (draw Value)) c (ks : list string) :
  (forall k, In k ks -> is_cache_key k) ->
  exists ops ks' o,
    workload_from (c, ks) draws = ((run c ops, ks'), o) /\
    (forall k, In k ks' -> is_cache_key k) /\
    (length ops <= length draws)%nat /\
    cache_keyed ops /\
    (0 <= max_size c -> 2 * Z.of_nat (length ks) <= 3 * max_size c ->
     2 * Z.of_nat (length ks') <= 3 * max_size c) /\
    (o = Py.Returned tt \/ o = Py.Raised "OverflowError") /\
    (Forall fits draws -> o = Py.Returned tt).
Proof.
  revert c ks. induction draws as [|d draws IH]; intros c ks Hks.
  - exists [], ks, (Py.Returned tt). simpl. repeat split; auto. constructor.
  - cbn [workload_from].
    destruct (workload_iteration_cases c ks d Hks)
      as [(ops1 & ks1 & E1 & Hks1 & Hl1 & Hck1 & Hb1) | (E1 & Hover)].
    + rewrite E1.
      destruct (IH (run c ops1) ks1 Hks1)
        as (ops2 & ks2 & o & E2 & Hks2 & Hl2 & Hck2 & Hb2 & Ho & Hfit).
      exists (ops1 ++ ops2), ks2, o. rewrite E2, run_app.
      split; [reflexivity|]. split; [exact Hks2|]. split.
      { rewrite length_app. simpl. lia. }
      split; [apply Forall_app; split; assumption|].
      destruct (run_frame c ops1) as (Em & _). split; [|split].
      * intros Hm _. rewrite <- Em. apply Hb2; rewrite Em; auto.
      * exact Ho.
      * intros Hf. inversion Hf; subst. auto.
    + rewrite E1. exists [], ks, (Py.Raised "OverflowError"). simpl.
      repeat split; auto; [lia | constructor |].
      intros Hf. inversion Hf; subst. contradiction.
Qed.

Lemma workload_as_run c (draws : list (draw Value)) :
  exists ops ks' o,
    workload_loop c draws = ((run c ops, ks'), o) /\
    (length ops <= length draws)%nat /\
    cache_keyed ops /\
    (0 <= max_size c -> 2 * Z.of_nat (length ks') <= 3 * max_size c) /\
    (o = Py.Returned tt \/ o = Py.Raised "OverflowError") /\
    (Forall fits draws -> o = Py.Returned tt).
Proof.
  destruct (workload_from_run draws c [])
    as (ops & ks' & o & E & _ & Hl & Hck & Hb & Ho & Hf).
  - intros k [].
  - exists ops, ks', o. unfold workload_loop. rewrite E.
    repeat split; auto. intros Hm. apply Hb; [exact Hm | simpl; lia].
Qed.


(** Whether [simulate_workload] runs through or is stopped by the
    OverflowError of [generate_value], it leaves a cache of positive
    capacity within its capacity. *)
Theorem workload_keeps_bound c (draws : list (draw Value)) :
  0 < max_size c ->
  Z.of_nat (length (cache c)) <= max_size c ->
  Z.of_nat (length (cache (fst (simulate_workload c draws)))) <= max_size c.
Proof.
  intros Hpos Hb. unfold simulate_workload.
  destruct (workload_as_run c draws) as (ops & ks' & o & E & _).
  rewrite E. simpl. pose proof (run_bounded c ops Hpos Hb) as H.
  unfold bounded in H. destruct (run_frame c ops) as (Em & _). now rewrite Em in H.
Qed.

(** [simulate_workload] makes at most one [get] per iteration: in the
    cache it leaves, whether it ran through or raised, hits plus misses
    have grown by at most the number of iterations, and have not shrunk. *)
Theorem workload_lookups c (draws : list (draw Value)) :
  let c' := fst (simulate_workload c draws) in
  hit_count c + miss_count c <= hit_count c' + miss_count c' /\
  hit_count c' + miss_count c' <= hit_count c + miss_count c + Z.of_nat (length draws).
Proof.
  intros c'. subst c'. unfold simulate_workload.
  destruct (workload_as_run c draws) as (ops & ks' & o & E & Hl & _).
  rewrite E. simpl. rewrite run_counters.
  pose proof (count_gets_le ops). lia.
Qed.

(** [simulate_workload] reads, writes and deletes only keys it generated
    itself (prefix cache): in the cache it leaves, whether it ran through
    or raised, an entry stored by [warmup] (prefix warmup) is exactly as it
    was, or has been evicted. *)
Theorem workload_spares_warmup_entries c (draws : list (draw Value))
    (i : fill Value) :
  wf c ->
  getitem (warm_key i) (cache (fst (simulate_workload c draws))) =
    getitem (warm_key i) (cache c) \/
  getitem (warm_key i) (cache (fst (simulate_workload c draws))) = None.
Proof.
  intros Hwf. unfold simulate_workload.
  destruct (workload_as_run c draws) as (ops & ks' & o & E & _ & Hck & _).
  rewrite E. simpl. apply run_untouched; [exact Hwf|].
  unfold cache_keyed in Hck. eapply List.Forall_impl; [|exact Hck].
  intros op (k & Hk & Hck') Heq. rewrite Hk in Heq. injection Heq as ->.
  exact (warm_key_not_cache_key i Hck').
Qed.

(** When [max_size] is not negative, the driver's own list of keys holds
    at most one and a half times [max_size] keys when the loop ends or is
    left by an exception. *)
Theorem workload_key_list_bound c (draws : list (draw Value)) :
  0 <= max_size c ->
  2 * Z.of_nat (length (snd (fst (workload_loop c draws)))) <= 3 * max_size c.
Proof.
  intros Hm.
  destruct (workload_as_run c draws) as (ops & ks' & o & E & _ & _ & Hb & _).
  rewrite E. simpl. now apply Hb.
Qed.

(** [simulate_workload] runs through when the random bits of every
    iteration fit the bytes [generate_value] asks for, as they always do
    when every size is a multiple of 8; no other exception exists. *)
Theorem workload_completes c (draws : list (draw Value)) :
  Forall fits draws ->
  snd (simulate_workload c draws) = Py.Returned tt.
Proof.
  intros Hf. unfold simulate_workload.
  destruct (workload_as_run c draws) as (ops & ks' & o & E & _ & _ & _ & _ & Ho).
  rewrite E. simpl. now apply Ho.
Qed.


End WorkloadFacts.

(** ** The statistics *)

Section StatsFacts.
Import OrderedDict CacheSimulator.
Context {Value : Type}.
Implicit Types (c : t Value) (key k : string) (op : call Value).

Lemma count_gets_app (ops1 ops2 : list (call Value)) :
  count_gets (ops1 ++ ops2) = count_gets ops1 + count_gets ops2.
Proof. induction ops1 as [|op ops1 IH]; simpl; [reflexivity | rewrite IH; lia]. Qed.

Lemma stats_of_run (str_len : Item Value -> nat) (max_size ttl : Z) (r : nat)
    (ops : list (call Value)) :
  let s := get_stats str_len (run (new max_size ttl r) ops) in
  stats_hits s + stats_misses s = count_gets ops /\
  0 <= stats_hits s <= count_gets ops /\
  0 <= stats_misses s /\ 0 <= stats_evictions s /\
  stats_hit_ratio s =
    (if count_gets ops >? 0 then FloatQuotient (stats_hits s) (count_gets ops)
     else IntZero) /\
  stats_max_size s = max_size /\
  In (stats_strategy s) [LRU; LFU; FIFO; TTL] /\
  (0 < max_size -> 0 <= stats_size s <= max_size).
Proof.
  set (c0 := @new Value max_size ttl r).
  pose proof (run_counters c0 ops) as Hsum.
  pose proof (counters_grow_aux c0 ops) as (Hh & Hm & He).
  destruct (run_frame c0 ops) as (Emax & _ & Estr & _).
  change (hit_count c0) with 0 in *. change (miss_count c0) with 0 in *.
  change (eviction_count c0) with 0 in *.
  assert (Hsum' : hit_count (run c0 ops) + miss_count (run c0 ops) = count_gets ops)
    by lia.
  assert (HIn : In (strategy (run c0 ops)) [LRU; LFU; FIFO; TTL]).
  { rewrite Estr. unfold c0, new, Py.choice. cbn [strategy]. apply nth_In.
    apply Nat.mod_upper_bound. simpl. discriminate. }
  cbv zeta. unfold get_stats. cbn [stats_hits stats_misses stats_evictions
    stats_hit_ratio stats_max_size stats_strategy stats_size].
  split; [exact Hsum'|]. split; [lia|]. split; [exact Hm|]. split; [exact He|].
  split; [now rewrite Hsum'|]. split; [exact Emax|]. split; [exact HIn|].
  intros Hpos. split; [lia|].
  assert (Hb : bounded (run c0 ops)).
  { apply run_bounded; [exact Hpos | unfold bounded; simpl; lia]. }
  unfold bounded in Hb. now rewrite Emax in Hb.
Qed.

(** [get_stats] on a cache used from new: hits plus misses is the number
    of [get] calls made, no counter is negative, and [hit_ratio] is the
    integer 0 exactly when no [get] was made; otherwise it is the float
    division of the hits by the number of [get] calls, where the hits are
    between 0 and that number. *)
Theorem get_stats_consistent (str_len : Item Value -> nat) (max_size ttl : Z)
    (r : nat) (ops : list (call Value)) :
  let s := get_stats str_len (run (new max_size ttl r) ops) in
  stats_hits s + stats_misses s = count_gets ops /\
  0 <= stats_hits s <= count_gets ops /\
  0 <= stats_misses s /\ 0 <= stats_evictions s /\
  stats_hit_ratio s =
    (if count_gets ops >? 0 then FloatQuotient (stats_hits s) (count_gets ops)
     else IntZero).
Proof.
  pose proof (stats_of_run str_len max_size ttl r ops) as H. cbv zeta in *.
  destruct H as (H1 & H2 & H3 & H4 & H5 & _). auto.
Qed.

(** When the random bits of every workload iteration fit, [main] reaches
    [get_stats], and whatever the random source and the clock yield
    otherwise, the statistics report the capacity 500, a size within it,
    at most one lookup per workload iteration, hits between 0 and the
    lookups, and one of the four strategy names. *)
Theorem main_report (str_len : Item Value -> nat) (r : nat)
    (fills : list (fill Value)) (draws : list (draw Value)) :
  Forall fits draws ->
  exists s,
    main str_len r fills draws = Py.Returned s /\
    stats_max_size s = 500 /\
    0 <= stats_size s <= 500 /\
    0 <= stats_hits s /\ 0 <= stats_misses s /\
    stats_hits s + stats_misses s <= Z.of_nat (length draws) /\
    stats_hit_ratio s =
      (if stats_hits s + stats_misses s >? 0
       then FloatQuotient (stats_hits s) (stats_hits s + stats_misses s)
       else IntZero) /\
    In (stats_strategy s) [LRU; LFU; FIFO; TTL].
Proof.
  intros Hfit. unfold main, simulate_workload.
  destruct (workload_as_run (warmup (new 500 600 r) fills) draws)
    as (ops & ks' & o & E & Hl & _ & _ & _ & Ho).
  rewrite E, (Ho Hfit). cbn [fst snd]. rewrite warmup_run, <- run_app.
  eexists. split; [reflexivity|].
  pose proof (stats_of_run str_len 500 600 r (map warm_call fills ++ ops)) as H.
  cbv zeta in H.
  destruct H as (Hsum & Hh & Hm & _ & Hr & Emax & Hstr & Hsize).
  assert (Hg : count_gets (map warm_call fills ++ ops) <= Z.of_nat (length draws)).
  { rewrite count_gets_app.
    assert (Hz : count_gets (map warm_call fills) = 0).
    { clear. induction fills as [|i fills IH]; simpl; [reflexivity | now rewrite IH]. }
    pose proof (count_gets_le ops). lia. }
  split; [exact Emax|]. split; [apply Hsize; lia|].
  split; [lia|]. split; [exact Hm|]. split; [lia|].
  split; [rewrite Hsum; exact Hr | exact Hstr].
Qed.

End StatsFacts.

(** ** More scenarios, evaluated *)

Section EvaluatedMore.
Import OrderedDict CacheSimulator Scenarios.

Lemma two_live_wf : wf two_live.
Proof. apply run_wf, new_wf. Qed.

(** A hit on the LRU cache: reading [a] at 5. *)
Lemma get_live_witness :
  snd (get two_live a 5 6) = Some 1 /\
  hit_count (fst (get two_live a 5 6)) = hit_count two_live + 1 /\
  length (cache (fst (get two_live a 5 6))) = length (cache two_live).
Proof.
  assert (H1 : getitem a (cache two_live) = Some item_a) by reflexivity.
  assert (H2 : 5 <= expires item_a) by (simpl; lia).
  pose proof (get_live two_live a item_a 5 6 two_live_wf H1 H2) as H.
  simpl value in H. tauto.
Defined.

Lemma get_keeps_other_entries_witness :
  b <> a /\
  getitem b (cache (fst (get two_live a 5 6))) = getitem b (cache two_live).
Proof.
  assert (H : b <> a) by discriminate.
  split; [exact H|]. exact (get_keeps_other_entries two_live a 5 6 b H).
Defined.

Lemma set_keeps_other_entries_witness :
  a <> c /\
  Z.of_nat (length (cache two_live)) < max_size two_live /\
  getitem a (cache (fst (set two_live c 3 None 7 7))) = getitem a (cache two_live).
Proof.
  assert (H1 : a <> c) by discriminate.
  assert (H2 : Z.of_nat (length (cache two_live)) < max_size two_live)
    by (vm_compute; reflexivity).
  split; [exact H1|]. split; [exact H2|].
  exact (set_keeps_other_entries two_live c 3 None 7 7 a H1 (or_introl H2)).
Defined.

Lemma delete_removes_witness :
  getitem a (cache (delete two_live a)) = None /\
  eviction_count (delete two_live a) = eviction_count two_live /\
  snd (get (delete two_live a) a 5 6) = None.
Proof.
  pose proof (delete_removes two_live a 5 6 two_live_wf) as H. tauto.
Defined.

Lemma lru_get_protects_witness :
  strategy two_live = LRU /\
  (1 < length (cache two_live))%nat /\
  snd (evict (fst (get two_live a 5 6))) <> Some a.
Proof.
  assert (H1 : strategy two_live = LRU) by reflexivity.
  assert (H2 : getitem a (cache two_live) = Some item_a) by reflexivity.
  assert (H3 : 5 <= expires item_a) by (simpl; lia).
  assert (H4 : (1 < length (cache two_live))%nat) by (vm_compute; lia).
  split; [exact H1|]. split; [exact H4|].
  apply (lru_get_protects two_live a item_a 5 6 H1 two_live_wf H2 H3 H4).
Defined.

Lemma fifo_get_keeps_victim_witness :
  strategy full_fifo = FIFO /\
  snd (evict (fst (get full_fifo a 5 6))) = snd (evict full_fifo).
Proof.
  assert (H1 : strategy full_fifo = FIFO) by reflexivity.
  assert (H2 : getitem a (cache full_fifo) = Some item_a) by reflexivity.
  assert (H3 : 5 <= expires item_a) by (simpl; lia).
  split; [exact H1|].
  apply (fifo_get_keeps_victim full_fifo a item_a 5 6 H1 H2 H3).
Defined.

Lemma evict_ttl_victim_witness :
  strategy ttl_two = TTL /\
  cache ttl_two <> [] /\
  keys (cache ttl_two) = [a; b] /\
  snd (evict ttl_two) = Some b /\
  getitem b (cache ttl_two) = Some item_b_20 /\
  (forall k' it, getitem k' (cache ttl_two) = Some it ->
                 expires item_b_20 <= expires it) /\
  (forall it, getitem a (cache ttl_two) = Some it -> expires item_b_20 < expires it) /\
  keys (cache (fst (evict ttl_two))) = [a].
Proof.
  assert (H0 : strategy ttl_two = TTL) by reflexivity.
  assert (H1 : strategy ttl_two <> LRU) by (vm_compute; discriminate).
  assert (H2 : strategy ttl_two <> LFU) by (vm_compute; discriminate).
  assert (H3 : strategy ttl_two <> FIFO) by (vm_compute; discriminate).
  assert (H4 : cache ttl_two <> []) by (vm_compute; discriminate).
  assert (Hk : keys (cache ttl_two) = [a; b]) by reflexivity.
  assert (Hb : getitem b (cache ttl_two) = Some item_b_20) by reflexivity.
  destruct (evict_ttl_victim ttl_two H1 H2 H3 H4)
    as (victim & item & pre & post & Hv & Hget & Hkeys & Hni & Hmin & Hfirst & Hrest).
  assert (Ev : snd (evict ttl_two) = Some b) by reflexivity.
  rewrite Ev in Hv. injection Hv as <-.
  rewrite Hb in Hget. injection Hget as <-.
  assert (Hpre : pre = [a] /\ post = []).
  { rewrite Hk in Hkeys. destruct pre as [|p0 [|p1 pre]]; simpl in Hkeys.
    - discriminate.
    - injection Hkeys as <- <-. auto.
    - injection Hkeys as <- <- Hnil. destruct pre; discriminate. }
  destruct Hpre as [-> ->].
  repeat split; try assumption.
  - intros it Ha. apply (Hfirst a it); [now left | exact Ha].
Defined.

Lemma entry_untouched_by_other_keys_witness :
  Forall (fun op => key_of op <> Some a) calls_on_b /\
  (getitem a (cache (run two_live calls_on_b)) = getitem a (cache two_live) \/
   getitem a (cache (run two_live calls_on_b)) = None).
Proof.
  assert (H : Forall (fun op : call Z => key_of op <> Some a) calls_on_b).
  { unfold calls_on_b. repeat constructor; simpl; discriminate. }
  split; [exact H|].
  exact (entry_untouched_by_other_keys two_live calls_on_b a two_live_wf H).
Defined.

Lemma three_fills_distinct : List.NoDup (map warm_key three_fills).
Proof.
  unfold three_fills. simpl. repeat constructor; simpl; intuition discriminate.
Qed.

Lemma warmup_fills_witness :
  0 < 2 /\
  Z.of_nat (length (cache (warmup (new 2 300 0) three_fills))) =
    Z.min (Z.of_nat (length three_fills)) 2 /\
  eviction_count (warmup (new 2 300 0) three_fills) =
    Z.max 0 (Z.of_nat (length three_fills) - 2).
Proof.
  assert (H : 0 < 2) by lia. split; [exact H|].
  pose proof (warmup_fills 2 300 0 three_fills H three_fills_distinct) as W.
  cbv zeta in W. tauto.
Defined.

Lemma workload_keeps_bound_witness :
  0 < max_size (new 2 300 0 : t Z) /\
  Z.of_nat (length (cache (fst (simulate_workload (new 2 300 0) four_draws)))) <= 2.
Proof.
  assert (H1 : 0 < max_size (new 2 300 0 : t Z)) by (simpl; lia).
  assert (H2 : Z.of_nat (length (cache (new 2 300 0 : t Z))) <= max_size (new 2 300 0 : t Z))
    by (simpl; lia).
  split; [exact H1|].
  exact (workload_keeps_bound (new 2 300 0) four_draws H1 H2).
Defined.

Lemma warmed_wf : wf (warmup (new 2 300 0) three_fills).
Proof. rewrite warmup_run. apply run_wf, new_wf. Qed.

Lemma workload_spares_warmup_entries_witness :
  getitem (warm_key (mkFill "2d" 3 2 2))
          (cache (fst (simulate_workload (warmup (new 2 300 0) three_fills) four_draws))) =
    getitem (warm_key (mkFill "2d" 3 2 2)) (cache (warmup (new 2 300 0) three_fills)) \/
  getitem (warm_key (mkFill "2d" 3 2 2))
          (cache (fst (simulate_workload (warmup (new 2 300 0) three_fills) four_draws))) = None.
Proof.
  exact (workload_spares_warmup_entries (warmup (new 2 300 0) three_fills) four_draws
           (mkFill "2d" 3 2 2) warmed_wf).
Defined.

Lemma workload_key_list_bound_witness :
  0 <= max_size (new 2 300 0 : t Z) /\
  2 * Z.of_nat (length (snd (fst (workload_loop (new 2 300 0 : t Z) four_draws)))) <= 3 * 2.
Proof.
  assert (H1 : 0 <= max_size (new 2 300 0 : t Z)) by (simpl; lia).
  split; [exact H1|].
  exact (workload_key_list_bound (new 2 300 0) four_draws H1).
Defined.

Lemma four_draws_fit : Forall (@fits Z) four_draws.
Proof. unfold four_draws. repeat constructor; unfold fits; vm_compute; reflexivity. Qed.

Lemma workload_completes_witness :
  Forall (@fits Z) four_draws /\
  snd (simulate_workload (new 2 300 0) four_draws) = Py.Returned tt.
Proof.
  split; [exact four_draws_fit|].
  exact (workload_completes (new 2 300 0) four_draws four_draws_fit).
Defined.


Lemma main_report_witness :
  Forall (@fits Z) four_draws /\
  exists s,
    main (fun _ => 0%nat) 0 three_fills four_draws = Py.Returned s /\
    stats_max_size s = 500 /\
    0 <= stats_size s <= 500 /\
    stats_hits s + stats_misses s <= Z.of_nat (length four_draws).
Proof.
  split; [exact four_draws_fit|].
  destruct (main_report (fun _ : Item Z => 0%nat) 0 three_fills four_draws four_draws_fit)
    as (s & E & H1 & H2 & _ & _ & H3 & _).
  exists s. auto.
Defined.

(** C10, amended, on the entry stored with a negative ttl: its fields are
    those of the one [set] call made. *)
Lemma entries_carry_latest_set_witness :
  getitem k (cache negative_ttl) = Some (mkItem 7 95 100 0 None) /\
  exists v custom_ttl now1 now2,
    last_set k [CallSet k 7 (Some (-5)) 100 100] = Some (v, custom_ttl, now1, now2) /\
    value (mkItem 7 95 100 0 None) = v /\
    expires (mkItem 7 95 100 0 None) = now1 + Py.or_ custom_ttl 300 /\
    created (mkItem 7 95 100 0 None) = now2 /\
    (expires (mkItem 7 95 100 0 None) > created (mkItem 7 95 100 0 None) <->
     now1 + Py.or_ custom_ttl 300 > now2).
Proof.
  assert (H : getitem k (cache (run (new 10 300 0) [CallSet k 7 (Some (-5)) 100 100]))
              = Some (mkItem 7 95 100 0 None)) by reflexivity.
  split; [exact H|].
  exact (entries_carry_latest_set 10 300 0 [CallSet k 7 (Some (-5)) 100 100] k
           (mkItem 7 95 100 0 None) H).
Defined.

End EvaluatedMore.
